(** * minform: minimal indicators for text interfaces

    A shallow embedding of [minform.py] and the properties of its four
    indicators: [Bouncer], [Spinner], [Ellipsis] and [ProgressBar].

    - Python [int] is [Z]; Python [float] is IEEE 754 binary64, taken from the
      standard library's [SpecFloat] (precision 53, [emax] 1024);
    - Python [str] is [string]; [print] appends to the text written to the
      standard output;
    - a method that may raise returns a [result];
    - the two threads of an animated indicator are a step relation on the
      program points of [run] and of the [with] statement;
    - [time.sleep] takes seconds, the model counts milliseconds.

    Memory is not bounded: a bar of any width can be built. *)

From Stdlib Require Import ZArith List String Ascii Bool Lia Arith.
From Stdlib Require Import DecimalString.
From Stdlib Require Import Floats.SpecFloat.
Import ListNotations.

Local Open Scope string_scope.
Local Open Scope Z_scope.

(** * Part I: the program *)

(** ** Exceptions and results *)

Inductive exn : Type :=
| ZeroDivisionError
| OverflowError
| ValueError.

Inductive result (A : Type) : Type :=
| Ok (a : A)
| Raise (e : exn).

Arguments Ok {A} a.
Arguments Raise {A} e.

Definition bind {A B : Type} (r : result A) (f : A -> result B) : result B :=
  match r with
  | Ok a => f a
  | Raise e => Raise e
  end.

Notation "x <- c1 ;; c2" := (bind c1 (fun x => c2))
  (at level 61, c1 at next level, right associativity).

(** ** Python strings *)

(** [s * n] for a string [s] and a count [n]. *)
Fixpoint str_repeat (s : string) (n : nat) : string :=
  match n with
  | O => EmptyString
  | S n' => s ++ str_repeat s n'
  end.

(** [s * n] for an integer [n]: empty when [n <= 0]. *)
Definition str_mul (s : string) (n : Z) : string := str_repeat s (Z.to_nat n).

(** [len(s)]. *)
Definition len (s : string) : Z := Z.of_nat (String.length s).

(** Truth value of a string: non-empty. *)
Definition truthy (s : string) : bool :=
  match s with
  | EmptyString => false
  | String _ _ => true
  end.

(** [str(k)], ['{}'.format(k)] for an integer. *)
Definition str_int (k : Z) : string := NilZero.string_of_int (Z.to_int k).

(** Carriage return and line feed. *)
Definition CR : string := String (ascii_of_nat 13) EmptyString.
Definition LF : string := String (ascii_of_nat 10) EmptyString.

(** ** Python floats: IEEE 754 binary64 *)

Module PyFloat.

Definition prec : Z := 53.
Definition emax : Z := 1024.

Definition float : Type := spec_float.

Definition is_finite (x : float) : bool :=
  match x with
  | S754_zero _ | S754_finite _ _ _ => true
  | _ => false
  end.

Definition is_zero (x : float) : bool :=
  match x with
  | S754_zero _ => true
  | _ => false
  end.

(** [float(k)] for an integer: the nearest double, ties to even;
    [OverflowError] when [k] is too large for a double. *)
Definition of_int (k : Z) : result float :=
  let x := binary_normalize prec emax k 0 false in
  if is_finite x then Ok x else Raise OverflowError.

(** [x * y] on floats: never raises, overflows to an infinity. *)
Definition mul (x y : float) : float := SFmul prec emax x y.

(** [x / y] on floats: [ZeroDivisionError] when [y] is a zero. *)
Definition div (x y : float) : result float :=
  if is_zero y then Raise ZeroDivisionError else Ok (SFdiv prec emax x y).

(** [int(x)]: truncation toward zero; [OverflowError] on an infinity,
    [ValueError] on a NaN. *)
Definition to_int (x : float) : result Z :=
  match x with
  | S754_zero _ => Ok 0
  | S754_finite s m e =>
      let a := match e with
               | Zneg p => Z.shiftr (Zpos m) (Zpos p)
               | _ => Z.shiftl (Zpos m) e
               end in
      Ok (if s then - a else a)
  | S754_infinity _ => Raise OverflowError
  | S754_nan => Raise ValueError
  end.

(** [a / b] on integers (true division): the double nearest to the exact
    quotient; [ZeroDivisionError] when [b = 0], [OverflowError] when the
    quotient is too large for a double. *)
Definition int_truediv (a b : Z) : result float :=
  match b, a with
  | Z0, _ => Raise ZeroDivisionError
  | _, Z0 => Ok (S754_zero (b <? 0))
  | _, _ =>
      let x := SFdiv prec emax
                 (S754_finite (a <? 0) (Z.to_pos (Z.abs a)) 0)
                 (S754_finite (b <? 0) (Z.to_pos (Z.abs b)) 0) in
      if is_finite x then Ok x else Raise OverflowError
  end.

(** The double [100.0]. *)
Definition hundred : float :=
  Eval vm_compute in binary_normalize prec emax 100 0 false.

(** The integer nearest to [m * 2^e], ties to even. *)
Definition round_half_even (m : positive) (e : Z) : Z :=
  match e with
  | Zneg p =>
      let d := Z.shiftl 1 (Zpos p) in
      let q := Zpos m / d in
      let r := Zpos m mod d in
      match 2 * r ?= d with
      | Lt => q
      | Gt => q + 1
      | Eq => if Z.even q then q else q + 1
      end
  | _ => Z.shiftl (Zpos m) e
  end.

Definition sign_str (s : bool) : string := if s then "-" else "".

(** ['{:.0%}'.format(x)]: [x] times 100 as a double, printed in fixed
    notation with no fractional digit, then a percent sign. *)
Definition format_percent0 (x : float) : string :=
  match mul x hundred with
  | S754_nan => "nan%"
  | S754_infinity s => sign_str s ++ "inf%"
  | S754_zero s => sign_str s ++ "0%"
  | S754_finite s m e => sign_str s ++ str_int (round_half_even m e) ++ "%"
  end.

End PyFloat.

(** ** ProgressBar *)

Module ProgressBar.

Record t : Type := mk {
  _n : Z;
  _message : string;
  _size : Z;
  _percent : bool
}.

(** The state a method runs in: the instance and the text written to the
    standard output so far. *)
Record world : Type := mkWorld {
  self : t;
  stdout : string
}.

(** [print(s, end=e)]. *)
Definition print (s e : string) (w : world) : world :=
  mkWorld (self w) (stdout w ++ s ++ e).

(** [ProgressBar(n, message='', size=40, percent=True)]. *)
Definition __init__ (n : Z) (message : string) (size : Z) (percent : bool)
  : t :=
  mk n message size percent.

(** [filled = int(self._size*float(k)/self._n)]. *)
Definition filled (pb : t) (k : Z) : result Z :=
  fk <- PyFloat.of_int k ;;
  fsize <- PyFloat.of_int (_size pb) ;;
  let p := PyFloat.mul fsize fk in
  fn <- PyFloat.of_int (_n pb) ;;
  q <- PyFloat.div p fn ;;
  PyFloat.to_int q.

(** The text between the parentheses: ['{:.0%}'.format(k/self._n)] or
    ['{}/{}'.format(k, self._n)]. *)
Definition complete (pb : t) (k : Z) : result string :=
  if _percent pb then
    x <- PyFloat.int_truediv k (_n pb) ;;
    Ok (PyFloat.format_percent0 x)
  else
    Ok (str_int k ++ "/" ++ str_int (_n pb)).

(** The bar: ['#'*filled] then ['-'*(self._size - filled)]. *)
Definition bar (pb : t) (nfilled : Z) : string :=
  str_mul "#" nfilled ++ str_mul "-" (_size pb - nfilled).

(** ['{}{}[{}{}] ({})\r'.format(...)]. *)
Definition line (pb : t) (nfilled : Z) (suffix : string) : string :=
  _message pb ++ (if truthy (_message pb) then " " else "") ++ "["
    ++ bar pb nfilled ++ "] (" ++ suffix ++ ")" ++ CR.

(** [update(self, k)]: the state after the call and its outcome.  A fault
    leaves the state as it was: nothing is printed before the line is
    complete. *)
Definition update (k : Z) (w : world) : world * result unit :=
  match filled (self w) k with
  | Raise e => (w, Raise e)
  | Ok nfilled =>
      match complete (self w) k with
      | Raise e => (w, Raise e)
      | Ok suffix => (print (line (self w) nfilled suffix) "" w, Ok tt)
      end
  end.

(** [__enter__(self)]: [self.update(0)], then returns the instance. *)
Definition __enter__ (w : world) : world * result t :=
  match update 0 w with
  | (w', Ok _) => (w', Ok (self w'))
  | (w', Raise e) => (w', Raise e)
  end.

(** [__exit__(self, type, value, traceback)]: [self.update(self._n)], then
    [print('')].  It returns [None], so a fault of the body propagates. *)
Definition __exit__ (w : world) : world * result unit :=
  match update (_n (self w)) w with
  | (w', Ok _) => (print "" LF w', Ok tt)
  | (w', Raise e) => (w', Raise e)
  end.

(** A fresh instance in front of an empty output. *)
Definition fresh (pb : t) : world := mkWorld pb "".

End ProgressBar.

(** ** Animated indicators *)

(** What the two threads do that the outside can see: text written to the
    standard output, and the background thread sleeping for a number of
    milliseconds. *)
Inductive event : Type :=
| Write (s : string)
| Sleep (ms : Z).

(** The parts of an animated indicator that [run] and [__exit__] use:
    the text printed at index [i] ([None] when the lookup raises), the index
    after the print, the argument of [time.sleep] and the text [__exit__]
    prints after the join. *)
Record animation : Type := mkAnimation {
  anim_frame : Z -> option string;
  anim_next : Z -> Z;
  anim_interval : Z;
  anim_final : string
}.

Module _CharacterIterator.

Record t : Type := mk {
  _characters : string;
  _message : string;
  _erase : bool;
  _run : bool
}.

Definition __init__ (characters message : string) (erase : bool) : t :=
  mk characters message erase true.

(** ['{} {}\r'.format(self._characters[i], self._message)]. *)
Definition frame (self : t) (i : Z) : option string :=
  match String.get (Z.to_nat i) (_characters self) with
  | Some c => Some (String c "" ++ " " ++ _message self ++ CR)
  | None => None
  end.

(** [i = (i + 1)%n] with [n = len(self._characters)]. *)
Definition next (self : t) (i : Z) : Z := (i + 1) mod len (_characters self).

(** What [__exit__] prints after the join: [print('{}  '.format(...))] or
    [print(' '*(len(self._message) + 2), end='\r')]. *)
Definition final (self : t) : string :=
  if negb (_erase self) && truthy (_message self) then
    _message self ++ "  " ++ LF
  else
    str_mul " " (len (_message self) + 2) ++ CR.

(** [time.sleep(0.1)]. *)
Definition anim (self : t) : animation :=
  mkAnimation (frame self) (next self) 100 (final self).

End _CharacterIterator.

Module Bouncer.

Definition __init__ (message : string) (erase : bool) : _CharacterIterator.t :=
  _CharacterIterator.__init__ ".:':" message erase.

End Bouncer.

Module Spinner.

Definition __init__ (message : string) (erase : bool) : _CharacterIterator.t :=
  _CharacterIterator.__init__ "-\|/" message erase.

End Spinner.

Module Ellipsis.

Record t : Type := mk {
  _message : string;
  _erase : bool;
  _run : bool
}.

Definition __init__ (message : string) (erase : bool) : t :=
  mk message erase true.

(** ['{}{}\r'.format(self._message, '.'*(i) + ' '*(3 - i))]. *)
Definition frame (self : t) (i : Z) : option string :=
  Some (_message self ++ (str_mul "." i ++ str_mul " " (3 - i)) ++ CR).

(** [i = (i + 1)%4]. *)
Definition next (i : Z) : Z := (i + 1) mod 4.

(** What [__exit__] prints after the join: [print('{}   '.format(...))] or
    [print(' '*(len(self._message) + 3), end='\r')]. *)
Definition final (self : t) : string :=
  if negb (_erase self) && truthy (_message self) then
    _message self ++ "   " ++ LF
  else
    str_mul " " (len (_message self) + 3) ++ CR.

(** [time.sleep(0.5)]. *)
Definition anim (self : t) : animation :=
  mkAnimation (frame self) next 500 (final self).

End Ellipsis.

(** The three public animated indicators, by their constructor call. *)
Inductive indicator : Type :=
| ABouncer (message : string) (erase : bool)
| ASpinner (message : string) (erase : bool)
| AnEllipsis (message : string) (erase : bool).

Definition animation_of (ind : indicator) : animation :=
  match ind with
  | ABouncer m e => _CharacterIterator.anim (Bouncer.__init__ m e)
  | ASpinner m e => _CharacterIterator.anim (Spinner.__init__ m e)
  | AnEllipsis m e => Ellipsis.anim (Ellipsis.__init__ m e)
  end.

(** [self._run] as the constructor leaves it. *)
Definition flag_of (ind : indicator) : bool :=
  match ind with
  | ABouncer m e => _CharacterIterator._run (Bouncer.__init__ m e)
  | ASpinner m e => _CharacterIterator._run (Spinner.__init__ m e)
  | AnEllipsis m e => Ellipsis._run (Ellipsis.__init__ m e)
  end.

Definition message_of (ind : indicator) : string :=
  match ind with
  | ABouncer m e => _CharacterIterator._message (Bouncer.__init__ m e)
  | ASpinner m e => _CharacterIterator._message (Spinner.__init__ m e)
  | AnEllipsis m e => Ellipsis._message (Ellipsis.__init__ m e)
  end.

Definition erase_of (ind : indicator) : bool :=
  match ind with
  | ABouncer m e => _CharacterIterator._erase (Bouncer.__init__ m e)
  | ASpinner m e => _CharacterIterator._erase (Spinner.__init__ m e)
  | AnEllipsis m e => Ellipsis._erase (Ellipsis.__init__ m e)
  end.

(** *** The two threads of [with Indicator(...): body] *)

(** Program points of [run], the body of the background thread:
    [TInitial], the thread object exists and [start] was not called;
    [TCheck i], at [while self._run]; [TPrint i], the flag was read true, at
    [print]; [TSleep i], printed and advanced [i], at [time.sleep];
    [TStopped], [run] returned or raised. *)
Inductive thread_pc : Type :=
| TInitial
| TCheck (i : Z)
| TPrint (i : Z)
| TSleep (i : Z)
| TStopped.

(** How the body of the [with] statement ends. *)
Inductive outcome : Type :=
| Returns
| Raises.

(** Program points of the controlling thread: [CEnter], at [__enter__]
    ([self.start()]); [CBody], inside the body; [CExit], [__exit__] entered,
    at [self._run = False]; [CJoin], at [self.join()]; [CFinal], at the final
    [print]; [CLeft], [__exit__] returned [None]: the statement is left, and
    a fault of the body propagates to the caller. *)
Inductive ctl_pc : Type :=
| CEnter
| CBody
| CExit (o : outcome)
| CJoin (o : outcome)
| CFinal (o : outcome)
| CLeft (o : outcome).

(** The flag [self._run], both program points and what happened so far,
    oldest first. *)
Record sys : Type := mkSys {
  run_flag : bool;
  thread : thread_pc;
  ctl : ctl_pc;
  trace : list event
}.

Section Animated.

Variable a : animation.

(** One step of either thread.  The body of the [with] statement writes
    nothing and does not touch the indicator; [join] can only be passed once
    the background thread has stopped.

    The controlling thread:
    - [step_enter]: [__enter__] calls [self.start()], [run] begins with
      [i = 0];
    - [step_body], [step_body_end]: the body works on, or ends by returning
      or by raising; either way [__exit__] is called;
    - [step_exit_stop]: [self._run = False];
    - [step_exit_join]: [self.join()] returns;
    - [step_exit_print]: the final [print], then [__exit__] returns.

    The background thread:
    - [step_check_true], [step_check_false]: [while self._run] reads the
      flag;
    - [step_print]: [print(...)] of the frame and [i = (i + 1)%n];
    - [step_print_raise]: [self._characters[i]] raises, [run] ends;
    - [step_sleep]: [time.sleep(...)]. *)
Inductive step : sys -> sys -> Prop :=
| step_enter : forall f tr,
    step (mkSys f TInitial CEnter tr) (mkSys f (TCheck 0) CBody tr)
| step_body : forall f th tr,
    step (mkSys f th CBody tr) (mkSys f th CBody tr)
| step_body_end : forall f th tr o,
    step (mkSys f th CBody tr) (mkSys f th (CExit o) tr)
| step_exit_stop : forall f th tr o,
    step (mkSys f th (CExit o) tr) (mkSys false th (CJoin o) tr)
| step_exit_join : forall f tr o,
    step (mkSys f TStopped (CJoin o) tr) (mkSys f TStopped (CFinal o) tr)
| step_exit_print : forall f th tr o,
    step (mkSys f th (CFinal o) tr)
         (mkSys f th (CLeft o) (tr ++ [Write (anim_final a)])%list)
| step_check_true : forall c tr i,
    step (mkSys true (TCheck i) c tr) (mkSys true (TPrint i) c tr)
| step_check_false : forall c tr i,
    step (mkSys false (TCheck i) c tr) (mkSys false TStopped c tr)
| step_print : forall f c tr i s,
    anim_frame a i = Some s ->
    step (mkSys f (TPrint i) c tr)
         (mkSys f (TSleep (anim_next a i)) c (tr ++ [Write s])%list)
| step_print_raise : forall f c tr i,
    anim_frame a i = None ->
    step (mkSys f (TPrint i) c tr) (mkSys f TStopped c tr)
| step_sleep : forall f c tr i,
    step (mkSys f (TSleep i) c tr)
         (mkSys f (TCheck i) c (tr ++ [Sleep (anim_interval a)])%list).

(** [steps n s s']: [s'] is reached from [s] in exactly [n] steps. *)
Inductive steps : nat -> sys -> sys -> Prop :=
| steps_O : forall s, steps O s s
| steps_S : forall n s s' s'',
    steps n s s' -> step s' s'' -> steps (S n) s s''.

Definition reachable_from (s s' : sys) : Prop := exists n, steps n s s'.



(** The index of [run] after [k] turns of its loop. *)
Fixpoint run_index (k : nat) : Z :=
  match k with
  | O => 0
  | S k' => anim_next a (run_index k')
  end.

Definition frame_text (i : Z) : string :=
  match anim_frame a i with
  | Some s => s
  | None => EmptyString
  end.

(** What [run] has done after [k] complete turns. *)
Fixpoint run_events (k : nat) : list event :=
  match k with
  | O => []
  | S k' =>
      (run_events k' ++
       [Write (frame_text (run_index k')); Sleep (anim_interval a)])%list
  end.

(** What the background thread has done when it stands at [th] in its turn
    number [k]. *)
Definition thread_trace (k : nat) (th : thread_pc) : list event :=
  match th with
  | TSleep _ => (run_events k ++ [Write (frame_text (run_index k))])%list
  | _ => run_events k
  end.

Definition thread_index (k : nat) (th : thread_pc) : Prop :=
  match th with
  | TInitial => k = O
  | TCheck i | TPrint i => i = run_index k
  | TSleep i => i = run_index (S k)
  | TStopped => True
  end.

(** What the controlling thread has written. *)
Definition farewell (c : ctl_pc) : list event :=
  match c with
  | CLeft _ => [Write (anim_final a)]
  | _ => []
  end.

(** The controlling thread has not executed [self._run = False] yet. *)
Definition before_stop (c : ctl_pc) : bool :=
  match c with
  | CEnter | CBody | CExit _ => true
  | _ => false
  end.

(** The controlling thread is past [self.join()]. *)
Definition joined (c : ctl_pc) : bool :=
  match c with
  | CFinal _ | CLeft _ => true
  | _ => false
  end.


(** What holds in every state of a [with] statement. *)
Definition inv (s : sys) : Prop :=
  run_flag s = before_stop (ctl s) /\
  (thread s = TInitial <-> ctl s = CEnter) /\
  (joined (ctl s) = true -> thread s = TStopped) /\
  exists k, thread_index k (thread s) /\
            trace s = (thread_trace k (thread s) ++ farewell (ctl s))%list.




End Animated.

(** The state in which [with obj: ...] starts: the flag as the constructor
    left it, the thread not started, nothing written. *)
Definition start_of (flag : bool) : sys := mkSys flag TInitial CEnter [].

Definition launched (ind : indicator) : sys := start_of (flag_of ind).

(** The text on the standard output after a trace. *)
Fixpoint text_of (tr : list event) : string :=
  match tr with
  | [] => EmptyString
  | Write s :: tr' => s ++ text_of tr'
  | Sleep _ :: tr' => text_of tr'
  end.

(** ** The terminal

    A terminal shows the text it receives: a carriage return moves the
    cursor to the start of the line, a line feed ends the line for good, any
    other character replaces what is under the cursor.  [scrolled] holds the
    lines ended so far, oldest first; [current] is the line the cursor is
    on. *)

Record screen : Type := mkScreen {
  scrolled : list string;
  current : string;
  cursor : nat
}.

Fixpoint overwrite (l : string) (pos : nat) (c : ascii) : string :=
  match pos, l with
  | O, EmptyString => String c EmptyString
  | O, String _ l' => String c l'
  | S p, EmptyString => String " " (overwrite EmptyString p c)
  | S p, String x l' => String x (overwrite l' p c)
  end.

(** What is left of a line after its first character. *)
Definition str_tail (s : string) : string :=
  match s with
  | EmptyString => EmptyString
  | String _ r => r
  end.

Definition is_cr (c : ascii) : bool := Ascii.eqb c (ascii_of_nat 13).
Definition is_lf (c : ascii) : bool := Ascii.eqb c (ascii_of_nat 10).

Definition put (sc : screen) (c : ascii) : screen :=
  if is_cr c then mkScreen (scrolled sc) (current sc) 0
  else if is_lf c then mkScreen (scrolled sc ++ [current sc])%list EmptyString 0
  else mkScreen (scrolled sc) (overwrite (current sc) (cursor sc) c)
                (S (cursor sc)).

Fixpoint show (sc : screen) (s : string) : screen :=
  match s with
  | EmptyString => sc
  | String c s' => show (put sc c) s'
  end.

Definition blank_screen : screen := mkScreen [] EmptyString 0.

(** A text with no carriage return and no line feed in it. *)
Fixpoint plain (s : string) : bool :=
  match s with
  | EmptyString => true
  | String c s' => negb (is_cr c) && negb (is_lf c) && plain s'
  end.

(** ** The specification's wording

    The frames, intervals and widths as the specification states them, to
    compare with what the classes compute. *)

(** Glyph of turn [t], then a space, the message and a carriage return;
    for [Ellipsis] the message, [t mod 4] dots padded with spaces to three
    characters, and a carriage return. *)
Definition spec_frame (ind : indicator) (t : nat) : string :=
  match ind with
  | ABouncer m _ => nth (t mod 4)%nat ["."; ":"; "'"; ":"] "" ++ " " ++ m ++ CR
  | ASpinner m _ => nth (t mod 4)%nat ["-"; "\"; "|"; "/"] "" ++ " " ++ m ++ CR
  | AnEllipsis m _ =>
      m ++ str_repeat "." (t mod 4)%nat
        ++ str_repeat " " (3 - t mod 4)%nat ++ CR
  end.

(** 100 ms for [Bouncer] and [Spinner], 500 ms for [Ellipsis]. *)
Definition spec_interval (ind : indicator) : Z :=
  match ind with
  | AnEllipsis _ _ => 500
  | _ => 100
  end.

(** [k] turns: each writes its frame, then sleeps. *)
Definition spec_events (ind : indicator) (k : nat) : list event :=
  flat_map (fun t => [Write (spec_frame ind t); Sleep (spec_interval ind)])
           (seq 0 k).

(** Width of the rendered frame content: glyph, separator and message, or
    message and the three-character dot field. *)
Definition spec_width (ind : indicator) : nat :=
  match ind with
  | AnEllipsis m _ => (String.length m + 3)%nat
  | ABouncer m _ | ASpinner m _ => (1 + 1 + String.length m)%nat
  end.

(** The padding [__exit__] prints after the message. *)
Definition padding (ind : indicator) : string :=
  match ind with
  | AnEllipsis _ _ => "   "
  | _ => "  "
  end.



(** ** Definitions used by the proofs about doubles *)

(** The second half of [binary_round_aux]: renormalise after rounding. *)
Definition finish (s : bool) (m e : Z) : spec_float :=
  let '(mrs, e') := shr_fexp PyFloat.prec PyFloat.emax m e loc_Exact in
  match shr_m mrs with
  | Z0 => S754_zero s
  | Zpos m' =>
      if e' <=? PyFloat.emax - PyFloat.prec then S754_finite s m' e'
      else S754_infinity s
  | Zneg _ => S754_nan
  end.

(** The location after one more bit is shifted out. *)
Definition shift_loc (odd : bool) (l : location) : location :=
  match odd, l with
  | false, loc_Exact => loc_Exact
  | false, loc_Inexact _ => loc_Inexact Lt
  | true, loc_Exact => loc_Inexact Eq
  | true, loc_Inexact _ => loc_Inexact Gt
  end.

(** The location [l] of a rounding describes the remainder [r] of a division
    by [d]: nothing left, less than half, half, more than half. *)
Definition loc_spec (l : location) (r d : Z) : Prop :=
  match l with
  | loc_Exact => r = 0
  | loc_Inexact Lt => 0 < r /\ 2 * r < d
  | loc_Inexact Eq => 0 < r /\ 2 * r = d
  | loc_Inexact Gt => d < 2 * r
  end.

(** [m * 2^e] is the normal double of the positive integer [a]. *)
Definition repr (a : Z) (m : positive) (e : Z) : Prop :=
  2 ^ 52 <= Zpos m < 2 ^ 53 /\ -52 <= e <= 0 /\ Zpos m = a * 2 ^ (- e).

(** ** Instances used as examples and counterexamples *)

(** The scenario of the specification:
    [ProgressBar(4, "Load", size=4, percent=True)]. *)
Definition load_bar : ProgressBar.t := ProgressBar.__init__ 4 "Load" 4 true.


(** A total one past the integers a double holds exactly, width 1. *)
Definition huge_total_bar : ProgressBar.t :=
  ProgressBar.__init__ (2 ^ 53 + 1) "" 1 true.

(** A width past the integers a double holds exactly. *)
Definition huge_width_bar : ProgressBar.t :=
  ProgressBar.__init__ 1 "" (2 ^ 53 + 3) true.


(** A negative total. *)
Definition negative_total_bar : ProgressBar.t :=
  ProgressBar.__init__ (-5) "" 4 true.

(** The scenario of the specification: [Bouncer("Go", erase=False)]. *)
Definition go : indicator := ABouncer "Go" false.

(** [with Bouncer("Go", erase=False)] after one frame, a body that returned
    and scope exit. *)
Definition go_left : sys :=
  mkSys false TStopped (CLeft Returns)
        [Write (". Go" ++ CR); Sleep 100; Write ("Go  " ++ LF)].

(** [Spinner("Go", erase=True)] and its scope left after one frame and a
    body that raised. *)
Definition gone : indicator := ASpinner "Go" true.


(** ** A ProgressBar scope

    [with ProgressBar(...) as pb: pb.update(k1); ...; pb.update(km)], the
    way [__main__] uses the class. *)

(** The body of the scope: the calls to [update], in order; the first fault
    ends it. *)
Fixpoint updates (ks : list Z) (w : ProgressBar.world)
  : ProgressBar.world * result unit :=
  match ks with
  | [] => (w, Ok tt)
  | k :: ks' =>
      match ProgressBar.update k w with
      | (w', Ok _) => updates ks' w'
      | (w', Raise e) => (w', Raise e)
      end
  end.

(** The [with] statement: a fault of [__enter__] skips the body and
    [__exit__]; otherwise [__exit__] runs however the body ended, and since
    it returns [None] a fault of the body propagates, unless [__exit__]
    raises itself. *)
Definition with_scope (ks : list Z) (w : ProgressBar.world)
  : ProgressBar.world * result unit :=
  match ProgressBar.__enter__ w with
  | (w0, Raise e) => (w0, Raise e)
  | (w0, Ok _) =>
      match updates ks w0 with
      | (w1, Ok _) => ProgressBar.__exit__ w1
      | (w1, Raise e) =>
          match ProgressBar.__exit__ w1 with
          | (w2, Ok _) => (w2, Raise e)
          | (w2, Raise e') => (w2, Raise e')
          end
      end
  end.

(** The progress bar of [__main__]: [ProgressBar(40, 'It can load!')] and
    [pb.update(i + 1)] for [i] in [range(40)]. *)
Definition demo_bar : ProgressBar.t :=
  ProgressBar.__init__ 40 "It can load!" 40 true.

Definition demo_updates : list Z :=
  map (fun i => Z.of_nat i + 1) (seq 0 40).



(** ** Counting and cutting *)


(** How many texts were written, and how often the thread slept. *)
Fixpoint writes (tr : list event) : nat :=
  match tr with
  | [] => O
  | Write _ :: tr' => S (writes tr')
  | Sleep _ :: tr' => writes tr'
  end.

Fixpoint sleeps (tr : list event) : nat :=
  match tr with
  | [] => O
  | Write _ :: tr' => sleeps tr'
  | Sleep _ :: tr' => S (sleeps tr')
  end.

(** The frame the background thread still owes once the flag is false, and
    the final text the controlling thread still owes. *)
Definition frames_due (th : thread_pc) : nat :=
  match th with
  | TPrint _ => 1
  | _ => 0
  end.

Definition sleeps_due (th : thread_pc) : nat :=
  match th with
  | TPrint _ | TSleep _ => 1
  | _ => 0
  end.

Definition finals_due (c : ctl_pc) : nat :=
  match c with
  | CLeft _ => 0
  | _ => 1
  end.

(** A subclass of [_CharacterIterator] with the glyph set [characters], the
    way [Bouncer] and [Spinner] are made. *)
Definition glyph_animation (characters message : string) (erase : bool) :
  animation :=
  _CharacterIterator.anim (_CharacterIterator.__init__ characters message erase).

(** [with Bouncer("Go", erase=False)] when the flag has just been set to
    false while the thread stands at its first [print]. *)
Definition go_stopping : sys := mkSys false (TPrint 0) (CJoin Returns) [].

(** * Part II: the properties *)

(** ** Doubles

    [SpecFloat] computes on mantissas bit by bit.  The lemmas below relate
    it to integer arithmetic on the range that matters here: integers below
    [2^53], which a double holds exactly. *)

Module FloatFacts.

Import PyFloat.

Lemma iter_pos_nat {A : Type} (f : A -> A) (p : positive) (x : A) :
  iter_pos f p x = Nat.iter (Pos.to_nat p) f x.
Proof.
  revert x; induction p as [p IH | p IH | ]; intros x; simpl iter_pos.
  - rewrite !IH, Pos2Nat.inj_xI, <- Nat.iter_add, <- Nat.iter_succ_r.
    f_equal; lia.
  - rewrite !IH, Pos2Nat.inj_xO, <- Nat.iter_add. f_equal; lia.
  - reflexivity.
Qed.

Lemma digits2_pos_bounds (p : positive) :
  2 ^ (Zpos (digits2_pos p) - 1) <= Zpos p < 2 ^ Zpos (digits2_pos p).
Proof.
  induction p as [p IH | p IH | ]; simpl digits2_pos.
  - rewrite Pos2Z.inj_succ, Z.pow_succ_r by lia.
    replace (Z.succ (Zpos (digits2_pos p)) - 1)
      with (Z.succ (Zpos (digits2_pos p) - 1)) by lia.
    rewrite Z.pow_succ_r by lia. lia.
  - rewrite Pos2Z.inj_succ, Z.pow_succ_r by lia.
    replace (Z.succ (Zpos (digits2_pos p)) - 1)
      with (Z.succ (Zpos (digits2_pos p) - 1)) by lia.
    rewrite Z.pow_succ_r by lia. lia.
  - simpl. lia.
Qed.

Lemma digits2_pos_unique (p : positive) (d : Z) :
  2 ^ (d - 1) <= Zpos p < 2 ^ d -> Zpos (digits2_pos p) = d.
Proof.
  intros [Hlo Hhi].
  pose proof (digits2_pos_bounds p) as [Hlo' Hhi'].
  assert (0 < d).
  { destruct (Z_lt_le_dec 0 d) as [|Hd]; [assumption|].
    destruct (Z.eq_dec d 0) as [->|]; [simpl in Hhi; lia|].
    rewrite (Z.pow_neg_r 2 d) in Hhi by lia. lia. }
  set (d' := Zpos (digits2_pos p)) in *.
  assert (d' - 1 < d).
  { apply (Z.pow_lt_mono_r_iff 2); lia. }
  assert (d - 1 < d').
  { apply (Z.pow_lt_mono_r_iff 2); lia. }
  lia.
Qed.

Lemma iter_xO_value (x d : positive) :
  Zpos (Pos.iter xO x d) = Zpos x * 2 ^ Zpos d.
Proof.
  induction d as [|d IH] using Pos.peano_ind.
  - simpl. lia.
  - rewrite Pos.iter_succ, Pos2Z.inj_xO, IH, Pos2Z.inj_succ, Z.pow_succ_r
      by lia.
    lia.
Qed.

Lemma shr_exact (x d : positive) :
  iter_pos shr_1 d (Build_shr_record (Zpos (Pos.iter xO x d)) false false)
  = Build_shr_record (Zpos x) false false.
Proof.
  rewrite iter_pos_nat, Pos2Nat.inj_iter.
  induction (Pos.to_nat d) as [|n IH]; simpl nat_rect.
  - reflexivity.
  - rewrite Nat.iter_succ_r. simpl shr_1. exact IH.
Qed.

Lemma fexp_normal (x : Z) : -1021 <= x -> fexp prec emax x = x - 53.
Proof. intros H. unfold fexp, emin, prec, emax. lia. Qed.

Lemma binary_round_aux_finish (s : bool) (m e : Z) (l : location) :
  binary_round_aux prec emax s m e l =
  let '(mrs, e') := shr_fexp prec emax m e l in
  finish s (round_nearest_even (shr_m mrs) (loc_of_shr_record mrs)) e'.
Proof. reflexivity. Qed.

Lemma loc_of_shr_record_of_loc (m : Z) (l : location) :
  loc_of_shr_record (shr_record_of_loc m l) = l.
Proof. destruct l as [|[]]; reflexivity. Qed.

Lemma shr_m_of_loc (m : Z) (l : location) : shr_m (shr_record_of_loc m l) = m.
Proof. destruct l as [|[]]; reflexivity. Qed.

Lemma shr_fexp_53 (m : positive) (e : Z) (l : location) :
  2 ^ 52 <= Zpos m < 2 ^ 53 -> -1074 <= e ->
  shr_fexp prec emax (Zpos m) e l = (shr_record_of_loc (Zpos m) l, e).
Proof.
  intros Hm He. unfold shr_fexp. simpl Zdigits2.
  rewrite (digits2_pos_unique m 53) by exact Hm.
  rewrite fexp_normal by lia.
  replace (53 + e - 53 - e) with 0 by lia. reflexivity.
Qed.

Lemma finish_53 (s : bool) (m : positive) (e : Z) :
  2 ^ 52 <= Zpos m < 2 ^ 53 -> -1074 <= e <= 971 ->
  finish s (Zpos m) e = S754_finite s m e.
Proof.
  intros Hm He. unfold finish. rewrite shr_fexp_53 by lia.
  simpl shr_m. unfold emax, prec.
  destruct (Z.leb_spec e (1024 - 53)); [reflexivity | lia].
Qed.

Lemma finish_carry (s : bool) (e : Z) :
  -1075 <= e <= 970 ->
  finish s (2 ^ 53) e = S754_finite s (2 ^ 52)%positive (e + 1).
Proof.
  intros He. unfold finish, shr_fexp.
  change (Zdigits2 (2 ^ 53)) with 54.
  rewrite fexp_normal by lia.
  replace (54 + e - 53 - e) with 1 by lia.
  simpl. rewrite (proj2 (Z.leb_le (e + 1) 971)) by lia. reflexivity.
Qed.

(** Rounding a 53-bit mantissa. *)
Lemma bra_53 (s : bool) (m : positive) (e : Z) (l : location) :
  2 ^ 52 <= Zpos m < 2 ^ 53 -> -1074 <= e <= 970 ->
  binary_round_aux prec emax s (Zpos m) e l =
  finish s (round_nearest_even (Zpos m) l) e.
Proof.
  intros Hm He. rewrite binary_round_aux_finish, shr_fexp_53 by lia.
  rewrite loc_of_shr_record_of_loc, shr_m_of_loc. reflexivity.
Qed.

(** Rounding a 54-bit mantissa: one bit is shifted out first. *)
Lemma bra_54 (s : bool) (m : positive) (e : Z) (l : location) :
  2 ^ 53 <= Zpos m < 2 ^ 54 -> -1075 <= e <= 969 ->
  binary_round_aux prec emax s (Zpos m) e l =
  finish s (round_nearest_even (Zpos m / 2) (shift_loc (Z.odd (Zpos m)) l))
         (e + 1).
Proof.
  intros Hm He. rewrite binary_round_aux_finish. unfold shr_fexp.
  simpl Zdigits2. rewrite (digits2_pos_unique m 54) by exact Hm.
  rewrite fexp_normal by lia.
  replace (54 + e - 53 - e) with 1 by lia.
  unfold shr. simpl iter_pos.
  destruct m as [p | p | ].
  - replace (Zpos p~1 / 2) with (Zpos p)
      by (apply (Z.div_unique _ 2 _ 1); lia).
    destruct l as [|[]]; reflexivity.
  - replace (Zpos p~0 / 2) with (Zpos p)
      by (apply (Z.div_unique _ 2 _ 0); lia).
    destruct l as [|[]]; reflexivity.
  - simpl in Hm. lia.
Qed.

(** Rounding a mantissa whose low bits are all zero is exact. *)
Lemma bra_exact (s : bool) (x d : positive) (e : Z) :
  2 ^ 52 <= Zpos x < 2 ^ 53 -> -1074 <= e + Zpos d <= 971 ->
  binary_round_aux prec emax s (Zpos (Pos.iter xO x d)) e loc_Exact =
  S754_finite s x (e + Zpos d).
Proof.
  intros Hx He. rewrite binary_round_aux_finish. unfold shr_fexp.
  simpl Zdigits2.
  rewrite (digits2_pos_unique (Pos.iter xO x d) (53 + Zpos d)).
  2:{ rewrite iter_xO_value.
      replace (53 + Zpos d - 1) with (52 + Zpos d) by lia.
      rewrite !Z.pow_add_r by lia.
      assert (0 < 2 ^ Zpos d) by (apply Z.pow_pos_nonneg; lia). nia. }
  rewrite fexp_normal by lia.
  replace (53 + Zpos d + e - 53 - e) with (Zpos d) by lia.
  simpl shr_record_of_loc. unfold shr. rewrite shr_exact.
  simpl. apply finish_53; lia.
Qed.

Lemma repr_exists (a : Z) :
  0 < a < 2 ^ 53 -> exists m e, repr a m e.
Proof.
  intros Ha. destruct a as [|p|p]; try lia.
  pose proof (digits2_pos_bounds p) as Hd.
  set (d := Zpos (digits2_pos p)) in *.
  assert (Hd53 : d <= 53).
  { assert (d - 1 < 53); [|lia]. apply (Z.pow_lt_mono_r_iff 2); lia. }
  assert (Hd1 : 1 <= d) by (unfold d; lia).
  destruct (Z.eq_dec d 53) as [E|NE].
  - exists p, 0. unfold repr. rewrite E in Hd. simpl Z.pow in *. lia.
  - exists (Pos.iter xO p (Z.to_pos (53 - d))), (d - 53). unfold repr.
    rewrite iter_xO_value, Z2Pos.id by lia.
    replace (- (d - 53)) with (53 - d) by lia.
    assert (H53 : 2 ^ 53 = 2 ^ d * 2 ^ (53 - d)).
    { rewrite <- Z.pow_add_r by lia. f_equal; lia. }
    assert (H52 : 2 ^ 52 = 2 ^ (d - 1) * 2 ^ (53 - d)).
    { rewrite <- Z.pow_add_r by lia. f_equal; lia. }
    assert (0 < 2 ^ (53 - d)) by (apply Z.pow_pos_nonneg; lia).
    rewrite H52, H53. split; [nia | split; [lia | reflexivity]].
Qed.

Lemma repr_unique (a : Z) (m m' : positive) (e e' : Z) :
  repr a m e -> repr a m' e' -> m = m' /\ e = e'.
Proof.
  intros (Hm & He & Hv) (Hm' & He' & Hv').
  assert (0 < a).
  { destruct (Z_lt_le_dec 0 a); [assumption|].
    assert (0 <= 2 ^ (- e)) by (apply Z.pow_nonneg; lia). nia. }
  assert (e = e').
  { destruct (Z.lt_trichotomy e e') as [Hlt | [Heq | Hgt]];
      [exfalso | assumption | exfalso].
    - assert (Hp : 2 ^ (- e) = 2 ^ (- e') * 2 ^ (e' - e)).
      { rewrite <- Z.pow_add_r by lia. f_equal; lia. }
      assert (2 <= 2 ^ (e' - e)).
      { change 2 with (2 ^ 1) at 1. apply Z.pow_le_mono_r; lia. }
      assert (0 < 2 ^ (- e')) by (apply Z.pow_pos_nonneg; lia).
      rewrite Hp in Hv. nia.
    - assert (Hp : 2 ^ (- e') = 2 ^ (- e) * 2 ^ (e - e')).
      { rewrite <- Z.pow_add_r by lia. f_equal; lia. }
      assert (2 <= 2 ^ (e - e')).
      { change 2 with (2 ^ 1) at 1. apply Z.pow_le_mono_r; lia. }
      assert (0 < 2 ^ (- e)) by (apply Z.pow_pos_nonneg; lia).
      rewrite Hp in Hv'. nia. }
  subst e'. split; [|reflexivity].
  apply Pos2Z.inj. congruence.
Qed.

(** [float(a)] is exact for [0 < a < 2^53]. *)
Lemma of_int_repr (a : Z) (m : positive) (e : Z) :
  repr a m e -> of_int a = Ok (S754_finite false m e).
Proof.
  intros Hr.
  assert (Ha : 0 < a < 2 ^ 53).
  { destruct Hr as (Hm & He & Hv).
    assert (1 <= 2 ^ (- e)) by (apply (Z.pow_le_mono_r 2 0); lia).
    split; [|nia].
    destruct (Z_lt_le_dec 0 a); [assumption|nia]. }
  destruct a as [|p|p]; try lia.
  pose proof (digits2_pos_bounds p) as Hd.
  assert (Hd53 : Zpos (digits2_pos p) <= 53).
  { assert (Zpos (digits2_pos p) - 1 < 53); [|lia].
    apply (Z.pow_lt_mono_r_iff 2); lia. }
  unfold of_int, binary_normalize, binary_round, shl_align.
  rewrite fexp_normal by lia.
  destruct (Z.eq_dec (Zpos (digits2_pos p)) 53) as [E|NE].
  - rewrite E in *. simpl Z.sub.
    assert (Hr' : repr (Zpos p) p 0) by (unfold repr; simpl Z.pow in *; lia).
    destruct (repr_unique _ _ _ _ _ Hr Hr') as [-> ->].
    rewrite bra_53 by lia.
    change (round_nearest_even ?x loc_Exact) with x.
    rewrite finish_53 by lia. reflexivity.
  - set (d := Zpos (digits2_pos p)) in *.
    assert (Hd1 : 1 <= d) by (unfold d; lia).
    assert (Hs : d + 0 - 53 - 0 = Zneg (Z.to_pos (53 - d))).
    { rewrite <- Pos2Z.opp_pos, Z2Pos.id by lia. lia. }
    rewrite Hs.
    assert (Hr' : repr (Zpos p) (Pos.iter xO p (Z.to_pos (53 - d)))
                       (d + 0 - 53)).
    { unfold repr. rewrite iter_xO_value, Z2Pos.id by lia.
      replace (- (d + 0 - 53)) with (53 - d) by lia.
      assert (H53 : 2 ^ 53 = 2 ^ d * 2 ^ (53 - d)).
      { rewrite <- Z.pow_add_r by lia. f_equal; lia. }
      assert (H52 : 2 ^ 52 = 2 ^ (d - 1) * 2 ^ (53 - d)).
      { rewrite <- Z.pow_add_r by lia. f_equal; lia. }
      assert (0 < 2 ^ (53 - d)) by (apply Z.pow_pos_nonneg; lia).
      rewrite H52, H53. split; [nia | split; [lia | reflexivity]]. }
    destruct (repr_unique _ _ _ _ _ Hr Hr') as [-> ->].
    destruct Hr' as (Hm & He & _).
    change (@PosDef.Pos.iter) with (@Pos.iter).
    rewrite bra_53 by lia.
    change (round_nearest_even ?x loc_Exact) with x.
    rewrite finish_53 by lia. reflexivity.
Qed.

(** The product of two exact doubles is exact when it stays below [2^53]. *)
Lemma mul_repr (a1 a2 : Z) (m1 m2 m : positive) (e1 e2 e : Z) :
  repr a1 m1 e1 -> repr a2 m2 e2 -> repr (a1 * a2) m e ->
  mul (S754_finite false m1 e1) (S754_finite false m2 e2)
  = S754_finite false m e.
Proof.
  intros (Hm1 & He1 & Hv1) (Hm2 & He2 & Hv2) (Hm & He & Hv).
  unfold mul, SFmul. simpl xorb.
  set (j := e1 + e2 - e).
  assert (Hpow : 2 ^ (- e1) * 2 ^ (- e2) = 2 ^ (- e) * 2 ^ (- j)
                 \/ j > 0).
  { destruct (Z_le_gt_dec j 0); [left|right; assumption].
    rewrite <- !Z.pow_add_r by lia. f_equal. lia. }
  assert (Hprod : Zpos (m1 * m2) = Zpos m1 * Zpos m2) by reflexivity.
  assert (Hj : j <= -52).
  { destruct (Z_le_gt_dec j (-52)); [assumption|exfalso].
    assert (0 < 2 ^ (- e)) by (apply Z.pow_pos_nonneg; lia).
    assert (0 < 2 ^ (- e1)) by (apply Z.pow_pos_nonneg; lia).
    assert (0 < 2 ^ (- e2)) by (apply Z.pow_pos_nonneg; lia).
    assert (Hle : 2 ^ (- e1) * 2 ^ (- e2) <= 2 ^ (- e) * 2 ^ 51).
    { rewrite <- !Z.pow_add_r by lia. apply Z.pow_le_mono_r; lia. }
    assert (Zpos m1 * Zpos m2 <= Zpos m * 2 ^ 51).
    { rewrite Hv1, Hv2, Hv.
      replace (a1 * 2 ^ (- e1) * (a2 * 2 ^ (- e2)))
        with (a1 * a2 * (2 ^ (- e1) * 2 ^ (- e2))) by ring.
      replace (a1 * a2 * 2 ^ (- e) * 2 ^ 51)
        with (a1 * a2 * (2 ^ (- e) * 2 ^ 51)) by ring.
      apply Z.mul_le_mono_nonneg_l; [nia | assumption]. }
    assert (2 ^ 52 * 2 ^ 52 <= Zpos m1 * Zpos m2) by nia.
    change (2 ^ 52) with 4503599627370496 in *.
    change (2 ^ 53) with 9007199254740992 in *.
    change (2 ^ 51) with 2251799813685248 in *. nia. }
  destruct Hpow as [Hpow|]; [|lia].
  assert (Hshape : (m1 * m2)%positive = Pos.iter xO m (Z.to_pos (- j))).
  { apply Pos2Z.inj. rewrite iter_xO_value, Z2Pos.id by lia.
    rewrite Hprod, Hv1, Hv2, Hv.
    replace (a1 * 2 ^ (- e1) * (a2 * 2 ^ (- e2)))
      with (a1 * a2 * (2 ^ (- e1) * 2 ^ (- e2))) by ring.
    rewrite Hpow. ring. }
  rewrite Hshape, bra_exact by (rewrite ?Z2Pos.id; lia).
  rewrite Z2Pos.id by lia. f_equal. lia.
Qed.

Lemma div_eucl_div_mod (a b : Z) : Z.div_eucl a b = (a / b, a mod b).
Proof. unfold Z.div, Z.modulo. destruct (Z.div_eucl a b); reflexivity. Qed.

(** The quotient of two normal doubles, before rounding. *)
Lemma div_core (m1 m2 : positive) (e1 e2 : Z) :
  2 ^ 52 <= Zpos m1 < 2 ^ 53 -> 2 ^ 52 <= Zpos m2 < 2 ^ 53 ->
  -52 <= e1 <= 0 -> -52 <= e2 <= 0 ->
  SFdiv prec emax (S754_finite false m1 e1) (S754_finite false m2 e2) =
  binary_round_aux prec emax false
    (Zpos m1 * 2 ^ 53 / Zpos m2) (e1 - e2 - 53)
    (new_location (Zpos m2) ((Zpos m1 * 2 ^ 53) mod Zpos m2)).
Proof.
  intros Hm1 Hm2 He1 He2. unfold SFdiv, SFdiv_core_binary.
  simpl Zdigits2.
  rewrite (digits2_pos_unique m1 53), (digits2_pos_unique m2 53) by assumption.
  rewrite fexp_normal by lia.
  replace (Z.min (53 + e1 - (53 + e2) - 53) (e1 - e2)) with (e1 - e2 - 53)
    by lia.
  replace (e1 - e2 - (e1 - e2 - 53)) with 53 by lia.
  rewrite Z.shiftl_mul_pow2 by lia.
  rewrite div_eucl_div_mod. reflexivity.
Qed.

Lemma new_location_up (nb k : Z) :
  0 <= k < nb ->
  match new_location nb k with
  | loc_Inexact Eq | loc_Inexact Gt => nb <= 2 * k
  | _ => True
  end.
Proof.
  intros Hk. unfold new_location, new_location_even, new_location_odd.
  destruct (Z.even nb) eqn:Hev; destruct (Z.eqb_spec k 0); try exact I.
  - destruct (Z.compare_spec (2 * k) nb); try exact I; lia.
  - destruct (Z.compare_spec (2 * k + 1) nb); try exact I; lia.
Qed.

Lemma round_nearest_even_cases (m : Z) (l : location) :
  round_nearest_even m l = m \/
  (round_nearest_even m l = m + 1 /\
   (l = loc_Inexact Eq \/ l = loc_Inexact Gt)).
Proof.
  destruct l as [|[]]; simpl; auto.
  destruct (Z.even m); auto.
Qed.

(** [int(x)] of a rounded mantissa with a non-positive exponent. *)
Lemma to_int_finish (m e : Z) :
  2 ^ 52 <= m <= 2 ^ 53 -> -1074 <= e <= 0 ->
  to_int (finish false m e) = Ok (m / 2 ^ (- e)).
Proof.
  intros Hm He.
  destruct (Z.eq_dec m (2 ^ 53)) as [->|Hne].
  - rewrite finish_carry by lia. unfold to_int.
    destruct (Z.eq_dec e 0) as [->|He0]; [reflexivity|].
    destruct (Z.eq_dec e (-1)) as [->|He1]; [reflexivity|].
    destruct (e + 1) as [|p|p] eqn:E; try lia.
    rewrite Z.shiftr_div_pow2 by lia. f_equal.
    replace (- e) with (1 + Zpos p) by lia.
    rewrite Z.pow_add_r by lia.
    change (2 ^ 53) with (2 ^ 1 * Zpos (2 ^ 52)).
    rewrite Z.div_mul_cancel_l; [reflexivity | | lia].
    assert (0 < 2 ^ Zpos p) by (apply Z.pow_pos_nonneg; lia). lia.
  - destruct m as [|p|p]; try (simpl in Hm; lia).
    rewrite finish_53 by lia. unfold to_int.
    destruct e as [|q|q]; try lia.
    + simpl Z.opp. rewrite Z.shiftl_mul_pow2 by lia. f_equal.
      change (2 ^ 0) with 1. rewrite Z.div_1_r. lia.
    + rewrite Z.shiftr_div_pow2 by lia. reflexivity.
Qed.

(** The quotient [q] of [a * w] by [n] lies in the window of [a / n]. *)
Lemma quotient_window (a n w q r : Z) :
  0 < n -> 0 <= a -> 0 < w -> a * w = q * n + r -> 0 <= r < n ->
  (a / n) * w <= q < (a / n + 1) * w.
Proof.
  intros Hn Ha Hw Hq Hr.
  pose proof (Z.div_mod a n ltac:(lia)) as Hdm.
  pose proof (Z.mod_pos_bound a n Hn) as Hrho.
  set (c := a / n) in *. set (rho := a mod n) in *.
  assert (E : q * n + r = n * (c * w) + rho * w)
    by (rewrite <- Hq, Hdm at 1; ring).
  assert (0 <= rho * w) by nia.
  assert (rho * w < n * w) by nia.
  split.
  - assert (n * (c * w) < n * (q + 1)) by nia.
    assert (c * w < q + 1) by (apply (Z.mul_lt_mono_pos_l n); lia). lia.
  - assert (n * q < n * ((c + 1) * w)) by nia.
    apply (Z.mul_lt_mono_pos_l n); lia.
Qed.

(** Rounding up never reaches the next integer: 53-bit quotient. *)
Lemma trunc_after_round_53 (a n w q r m : Z) :
  0 < n -> 0 <= a < 2 ^ 53 -> 0 < w -> a * w = q * n + r -> 0 <= r < n ->
  2 ^ 52 <= q ->
  m = q \/ (m = q + 1 /\ n <= 2 * r) ->
  m / w = a / n.
Proof.
  intros Hn Ha Hw Hq Hr Hq52 Hm.
  pose proof (quotient_window a n w q r Hn ltac:(lia) Hw Hq Hr) as [Hlo Hhi].
  pose proof (Z.div_mod a n ltac:(lia)) as Hdm.
  pose proof (Z.mod_pos_bound a n Hn) as Hrho.
  set (c := a / n) in *. set (rho := a mod n) in *.
  symmetry. apply (Z.div_unique m w c (m - c * w)); [|ring].
  left. destruct Hm as [-> | [-> Hup]]; [lia|].
  split; [lia|].
  destruct (Z.eq_dec (q + 1) ((c + 1) * w)) as [E|NE]; [exfalso|lia].
  assert (Hq' : q = (c + 1) * w - 1) by lia.
  assert (Hk : w * (n - rho) = n - r).
  { rewrite Hq' in Hq. rewrite Hdm in Hq at 1. nia. }
  assert (w <= n - r) by nia.
  assert (2 * w <= n) by lia.
  assert (2 ^ 52 * (2 * w) <= a * w) by nia.
  assert (2 ^ 53 * w <= a * w) by (change (2 ^ 53) with (2 ^ 52 * 2); lia).
  assert (2 ^ 53 <= a) by (apply (Z.mul_le_mono_pos_r _ _ w); lia).
  lia.
Qed.

(** Rounding up never reaches the next integer: 54-bit quotient. *)
Lemma trunc_after_round_54 (a n w q r m : Z) :
  0 < n -> 0 <= a < 2 ^ 53 -> 0 < w -> a * (2 * w) = q * n + r -> 0 <= r < n ->
  2 ^ 53 <= q ->
  m = q / 2 \/ (m = q / 2 + 1 /\ Z.odd q = true) ->
  m / w = a / n.
Proof.
  intros Hn Ha Hw Hq Hr Hq53 Hm.
  pose proof (quotient_window a n (2 * w) q r Hn ltac:(lia) ltac:(lia) Hq Hr)
    as [Hlo Hhi].
  pose proof (Z.div_mod a n ltac:(lia)) as Hdm.
  pose proof (Z.mod_pos_bound a n Hn) as Hrho.
  set (c := a / n) in *. set (rho := a mod n) in *.
  pose proof (Z.div_mod q 2 ltac:(lia)) as Hq2.
  pose proof (Z.mod_pos_bound q 2 ltac:(lia)) as Hb.
  symmetry. apply (Z.div_unique m w c (m - c * w)); [|ring].
  left. destruct Hm as [-> | [-> Hodd]]; [lia|].
  split; [lia|].
  apply Z.odd_spec in Hodd. destruct Hodd as [t Ht].
  destruct (Z.eq_dec (q / 2 + 1) ((c + 1) * w)) as [E|NE]; [exfalso|lia].
  assert (Hq' : q = (c + 1) * (2 * w) - 1) by lia.
  assert (Hk : 2 * w * (n - rho) = n - r).
  { rewrite Hq' in Hq. rewrite Hdm in Hq at 1. nia. }
  assert (2 * w <= n - r) by nia.
  assert (2 ^ 53 * (2 * w) <= a * (2 * w)) by nia.
  assert (2 ^ 53 <= a) by (apply (Z.mul_le_mono_pos_r _ _ (2 * w)); lia).
  lia.
Qed.

Lemma shift_loc_up (b : bool) (l : location) :
  shift_loc b l = loc_Inexact Eq \/ shift_loc b l = loc_Inexact Gt -> b = true.
Proof. destruct b, l; simpl; intros [H|H]; congruence. Qed.

(** [int(x / y)] for two exact doubles is the floor of the exact quotient. *)
Lemma div_to_int (a n : Z) (m1 m2 : positive) (e1 e2 : Z) :
  repr a m1 e1 -> repr n m2 e2 ->
  exists x, div (S754_finite false m1 e1) (S754_finite false m2 e2) = Ok x
            /\ to_int x = Ok (a / n).
Proof.
  intros (Hm1 & He1 & Hv1) (Hm2 & He2 & Hv2).
  unfold div. simpl is_zero. eexists; split; [reflexivity|].
  rewrite div_core by assumption.
  set (u1 := 2 ^ (- e1)) in *. set (u2 := 2 ^ (- e2)) in *.
  set (w := 2 ^ (53 + e2 - e1)).
  assert (Hu1 : 0 < u1) by (apply Z.pow_pos_nonneg; lia).
  assert (Hu2 : 0 < u2) by (apply Z.pow_pos_nonneg; lia).
  assert (Hw : 0 < w) by (apply Z.pow_pos_nonneg; lia).
  assert (Hwu : w * u2 = 2 ^ 53 * u1).
  { unfold w, u1, u2. rewrite <- !Z.pow_add_r by lia. f_equal; lia. }
  assert (Ha : 0 < a < 2 ^ 53) by nia.
  assert (Hn : 0 < n < 2 ^ 53) by nia.
  assert (HN : Zpos m1 * 2 ^ 53 = a * w * u2) by (rewrite Hv1; nia).
  rewrite HN, Hv2.
  rewrite Z.div_mul_cancel_r, Z.mul_mod_distr_r by lia.
  pose proof (Z.div_mod (a * w) n ltac:(lia)) as Hdm.
  pose proof (Z.mod_pos_bound (a * w) n ltac:(lia)) as Hr.
  set (q := a * w / n) in *. set (r := (a * w) mod n) in *.
  assert (Hq : 2 ^ 52 <= q < 2 ^ 54).
  { assert (E : q * (n * u2) + r * u2 = Zpos m1 * 2 ^ 53) by (rewrite HN; nia).
    rewrite <- Hv2 in E.
    assert (r * u2 < Zpos m2) by nia.
    assert (0 <= r * u2) by nia.
    split.
    - assert (2 ^ 52 * Zpos m2 < (q + 1) * Zpos m2) by nia.
      assert (2 ^ 52 < q + 1) by (apply (Z.mul_lt_mono_pos_r (Zpos m2)); lia).
      lia.
    - assert (q * Zpos m2 < 2 ^ 54 * Zpos m2).
      { change (2 ^ 54) with (2 * 2 ^ 53). nia. }
      apply (Z.mul_lt_mono_pos_r (Zpos m2)); lia. }
  assert (Hup : forall l, l = new_location (n * u2) (r * u2) ->
                 l = loc_Inexact Eq \/ l = loc_Inexact Gt -> n <= 2 * r).
  { intros l -> Hl.
    pose proof (new_location_up (n * u2) (r * u2) ltac:(nia)) as H.
    destruct Hl as [Hl|Hl]; rewrite Hl in H; nia. }
  set (l := new_location (n * u2) (r * u2)) in *.
  specialize (Hup l eq_refl).
  destruct q as [|p|p]; try (simpl in Hq; lia).
  destruct (Z_lt_le_dec (Zpos p) (2 ^ 53)) as [H53|H53].
  - rewrite bra_53 by lia.
    pose proof (round_nearest_even_cases (Zpos p) l) as Hc.
    rewrite to_int_finish by lia. f_equal.
    replace (- (e1 - e2 - 53)) with (53 + e2 - e1) by lia. fold w.
    apply (trunc_after_round_53 a n w (Zpos p) r); try lia.
    destruct Hc as [Hc | [Hc Hl]]; [left; assumption|right].
    split; [assumption|]. apply Hup; assumption.
  - rewrite bra_54 by lia.
    pose proof (round_nearest_even_cases (Zpos p / 2)
                  (shift_loc (Z.odd (Zpos p)) l)) as Hc.
    pose proof (Z.div_mod (Zpos p) 2 ltac:(lia)) as Hq2.
    pose proof (Z.mod_pos_bound (Zpos p) 2 ltac:(lia)) as Hb.
    rewrite to_int_finish by lia. f_equal.
    assert (Hw2 : w = 2 * 2 ^ (- (e1 - e2 - 53 + 1))).
    { unfold w. rewrite <- Z.pow_succ_r by lia. f_equal; lia. }
    assert (0 < 2 ^ (- (e1 - e2 - 53 + 1))) by (apply Z.pow_pos_nonneg; lia).
    apply (trunc_after_round_54 a n _ (Zpos p) r); try lia.
    destruct Hc as [Hc | [Hc Hl]]; [left; assumption|right].
    split; [assumption|]. apply shift_loc_up in Hl. assumption.
Qed.

Lemma of_int_0 : of_int 0 = Ok (S754_zero false).
Proof. reflexivity. Qed.

(** [filled] is the floor of the exact quotient as long as the integers
    involved are ones a double holds exactly. *)
Lemma filled_exact (pb : ProgressBar.t) (k : Z) :
  0 < ProgressBar._n pb < 2 ^ 53 ->
  0 <= ProgressBar._size pb < 2 ^ 53 ->
  0 <= k < 2 ^ 53 ->
  ProgressBar._size pb * k < 2 ^ 53 ->
  ProgressBar.filled pb k = Ok (ProgressBar._size pb * k / ProgressBar._n pb).
Proof.
  destruct pb as [n message size percent]. simpl.
  intros Hn Hsize Hk Hprod. unfold ProgressBar.filled.
  cbn [ProgressBar._n ProgressBar._size].
  destruct (repr_exists n Hn) as (mn & en & Hrn).
  rewrite (of_int_repr n mn en Hrn).
  destruct (Z.eq_dec k 0) as [->|Hk0].
  - rewrite of_int_0. rewrite Z.mul_0_r, Z.div_0_l by lia.
    destruct (Z.eq_dec size 0) as [->|Hs0].
    + rewrite of_int_0. reflexivity.
    + destruct (repr_exists size ltac:(lia)) as (ms & es & Hrs).
      rewrite (of_int_repr size ms es Hrs). reflexivity.
  - destruct (repr_exists k ltac:(lia)) as (mk & ek & Hrk).
    rewrite (of_int_repr k mk ek Hrk).
    destruct (Z.eq_dec size 0) as [->|Hs0].
    + rewrite of_int_0. rewrite Z.mul_0_l, Z.div_0_l by lia. reflexivity.
    + destruct (repr_exists size ltac:(lia)) as (ms & es & Hrs).
      rewrite (of_int_repr size ms es Hrs).
      destruct (repr_exists (size * k) ltac:(nia)) as (mp & ep & Hrp).
      cbn [bind].
      rewrite (mul_repr size k ms mk mp es ek ep Hrs Hrk Hrp).
      destruct (div_to_int (size * k) n mp mn ep en Hrp Hrn) as (x & Hx & Hi).
      rewrite Hx. cbn [bind]. exact Hi.
Qed.


Lemma round_nearest_even_bounds (m : Z) (l : location) :
  m <= round_nearest_even m l <= m + 1.
Proof. destruct (round_nearest_even_cases m l) as [-> | [-> _]]; lia. Qed.





Lemma complete_percent_zero (pb : ProgressBar.t) :
  0 < ProgressBar._n pb -> ProgressBar._percent pb = true ->
  ProgressBar.complete pb 0 = Ok "0%".
Proof.
  intros Hn Hp. unfold ProgressBar.complete. rewrite Hp.
  destruct (ProgressBar._n pb); try lia. reflexivity.
Qed.

End FloatFacts.

(** ** Strings *)

Lemma str_app_nil_r (s : string) : s ++ "" = s.
Proof. induction s as [|c s IH]; simpl; [reflexivity | now rewrite IH]. Qed.

Lemma str_app_assoc (s1 s2 s3 : string) : (s1 ++ s2) ++ s3 = s1 ++ s2 ++ s3.
Proof. induction s1 as [|c s1 IH]; simpl; [reflexivity | now rewrite IH]. Qed.

Lemma str_length_app (s1 s2 : string) :
  String.length (s1 ++ s2) = (String.length s1 + String.length s2)%nat.
Proof. induction s1 as [|c s1 IH]; simpl; [reflexivity | now rewrite IH]. Qed.

Lemma str_repeat_length (c : ascii) (n : nat) :
  String.length (str_repeat (String c "") n) = n.
Proof. induction n as [|n IH]; simpl; [reflexivity | now rewrite IH]. Qed.

Lemma truthy_false (s : string) : truthy s = false <-> s = "".
Proof. destruct s; simpl; split; congruence. Qed.

(** ** ProgressBar *)

Lemma bar_length (pb : ProgressBar.t) (f : Z) :
  0 <= f <= ProgressBar._size pb ->
  len (ProgressBar.bar pb f) = ProgressBar._size pb.
Proof.
  intros Hf. unfold len, ProgressBar.bar, str_mul.
  rewrite str_length_app, !str_repeat_length. lia.
Qed.

Lemma update_outcome (pb : ProgressBar.t) (k : Z) (out : string) :
  ProgressBar.update k (ProgressBar.mkWorld pb out) =
  match ProgressBar.filled pb k, ProgressBar.complete pb k with
  | Ok f, Ok suffix =>
      (ProgressBar.mkWorld pb (out ++ ProgressBar.line pb f suffix), Ok tt)
  | Raise e, _ | Ok _, Raise e => (ProgressBar.mkWorld pb out, Raise e)
  end.
Proof.
  unfold ProgressBar.update, ProgressBar.print. simpl ProgressBar.self.
  destruct (ProgressBar.filled pb k); [|reflexivity].
  destruct (ProgressBar.complete pb k); [|reflexivity].
  simpl. now rewrite str_app_nil_r.
Qed.


Lemma update_keeps_self (k : Z) (w : ProgressBar.world) :
  ProgressBar.self (fst (ProgressBar.update k w)) = ProgressBar.self w.
Proof.
  destruct w as [pb out]. rewrite update_outcome.
  destruct (ProgressBar.filled pb k); [|reflexivity].
  destruct (ProgressBar.complete pb k); reflexivity.
Qed.

(** What [update k] appends to the output, a function of the instance and
    [k] alone. *)
Lemma update_appends (k : Z) (w : ProgressBar.world) :
  exists text, forall out,
    ProgressBar.update k (ProgressBar.mkWorld (ProgressBar.self w) out) =
    (ProgressBar.mkWorld (ProgressBar.self w) (out ++ text),
     snd (ProgressBar.update k w)).
Proof.
  destruct w as [pb out0]. simpl ProgressBar.self.
  destruct (ProgressBar.filled pb k) as [f|e] eqn:Hf.
  - destruct (ProgressBar.complete pb k) as [suffix|e] eqn:Hc.
    + exists (ProgressBar.line pb f suffix). intros out.
      rewrite !update_outcome, Hf, Hc. reflexivity.
    + exists "". intros out.
      rewrite !update_outcome, Hf, Hc, str_app_nil_r. reflexivity.
  - exists "". intros out.
    rewrite !update_outcome, Hf, str_app_nil_r. reflexivity.
Qed.

(** C10: a ProgressBar keeps no completion state.  [update], [__enter__] and
    [__exit__] leave every field of the instance as it was, [__enter__]
    returns that same instance, and the text and outcome of [update k] are
    the same in front of any earlier output, also right after another
    [update]: they depend on the constructor arguments and [k] alone. *)
Theorem progress_bar_keeps_no_state (w : ProgressBar.world) (k : Z) :
  ProgressBar.self (fst (ProgressBar.update k w)) = ProgressBar.self w /\
  ProgressBar.self (fst (ProgressBar.__enter__ w)) = ProgressBar.self w /\
  ProgressBar.self (fst (ProgressBar.__exit__ w)) = ProgressBar.self w /\
  (forall pb,
     snd (ProgressBar.__enter__ w) = Ok pb -> pb = ProgressBar.self w) /\
  exists text,
    (forall out,
       ProgressBar.update k (ProgressBar.mkWorld (ProgressBar.self w) out) =
       (ProgressBar.mkWorld (ProgressBar.self w) (out ++ text),
        snd (ProgressBar.update k w))) /\
    (forall k0,
       ProgressBar.stdout
         (fst (ProgressBar.update k (fst (ProgressBar.update k0 w)))) =
       ProgressBar.stdout (fst (ProgressBar.update k0 w)) ++ text /\
       snd (ProgressBar.update k (fst (ProgressBar.update k0 w))) =
       snd (ProgressBar.update k w)).
Proof.
  split; [apply update_keeps_self|].
  split.
  { unfold ProgressBar.__enter__.
    pose proof (update_keeps_self 0 w) as H.
    destruct (ProgressBar.update 0 w) as [w' [u|e]]; exact H. }
  split.
  { unfold ProgressBar.__exit__.
    pose proof (update_keeps_self (ProgressBar._n (ProgressBar.self w)) w) as H.
    destruct (ProgressBar.update (ProgressBar._n (ProgressBar.self w)) w)
      as [w' [u|e]]; exact H. }
  split.
  { intros pb. unfold ProgressBar.__enter__.
    pose proof (update_keeps_self 0 w) as H.
    destruct (ProgressBar.update 0 w) as [w' [u|e]]; simpl in *; congruence. }
  destruct (update_appends k w) as [text Htext].
  exists text. split; [exact Htext|].
  intros k0.
  pose proof (update_keeps_self k0 w) as Hself.
  destruct (fst (ProgressBar.update k0 w)) as [pb0 out0] eqn:Hw0.
  simpl in Hself. subst pb0. rewrite Htext. split; reflexivity.
Qed.

(** C2 (as stated) fails past the integers a double holds exactly:
    with width 1 and total [2^53 + 1], [update(2^53)] fills one character
    although [floor(1 * 2^53 / (2^53 + 1)) = 0]; with width [2^53 + 3] and
    total 1, [update(1)] fills [2^53 + 4] characters, more than the width. *)
Lemma filled_differs_from_floor_on_large_integers :
  (0 < ProgressBar._n huge_total_bar /\
   0 <= ProgressBar._size huge_total_bar /\
   0 <= 2 ^ 53 <= ProgressBar._n huge_total_bar /\
   ProgressBar.filled huge_total_bar (2 ^ 53) = Ok 1 /\
   ProgressBar._size huge_total_bar * 2 ^ 53 / ProgressBar._n huge_total_bar
   = 0) /\
  (0 < ProgressBar._n huge_width_bar /\
   0 <= ProgressBar._size huge_width_bar /\
   0 <= 1 <= ProgressBar._n huge_width_bar /\
   ProgressBar.filled huge_width_bar 1 = Ok (2 ^ 53 + 4) /\
   ProgressBar._size huge_width_bar < 2 ^ 53 + 4).
Proof. vm_compute. repeat split; congruence. Qed.

(** C2 (amended): for a total [0 < n < 2^53], a width [0 <= size < 2^53] and
    [k] in [[0, n]] with [size * k < 2^53], the fill count of [update(k)] is
    [floor(size * k / n)], it lies in [[0, size]], and the bar is that many
    ['#'] followed by ['-'] up to the width [size]. *)
Theorem filled_is_floor_of_exact_quotient (pb : ProgressBar.t) (k : Z) :
  0 < ProgressBar._n pb < 2 ^ 53 ->
  0 <= ProgressBar._size pb < 2 ^ 53 ->
  0 <= k <= ProgressBar._n pb ->
  ProgressBar._size pb * k < 2 ^ 53 ->
  exists f,
    ProgressBar.filled pb k = Ok f /\
    f = ProgressBar._size pb * k / ProgressBar._n pb /\
    0 <= f <= ProgressBar._size pb /\
    ProgressBar.bar pb f =
      str_repeat "#" (Z.to_nat f) ++
      str_repeat "-" (Z.to_nat (ProgressBar._size pb) - Z.to_nat f) /\
    len (ProgressBar.bar pb f) = ProgressBar._size pb.
Proof.
  intros Hn Hsize Hk Hprod.
  exists (ProgressBar._size pb * k / ProgressBar._n pb).
  assert (Hf : 0 <= ProgressBar._size pb * k / ProgressBar._n pb
               <= ProgressBar._size pb).
  { split.
    - apply Z.div_pos; nia.
    - apply Z.div_le_upper_bound; nia. }
  split; [apply FloatFacts.filled_exact; lia|].
  split; [reflexivity|]. split; [exact Hf|]. split.
  - unfold ProgressBar.bar, str_mul. rewrite Z2Nat.inj_sub by lia. reflexivity.
  - apply bar_length. exact Hf.
Qed.

Lemma filled_is_floor_of_exact_quotient_witness :
  (0 < ProgressBar._n load_bar < 2 ^ 53 /\
   0 <= ProgressBar._size load_bar < 2 ^ 53 /\
   0 <= 3 <= ProgressBar._n load_bar /\
   ProgressBar._size load_bar * 3 < 2 ^ 53) /\
  exists f,
    ProgressBar.filled load_bar 3 = Ok f /\
    f = ProgressBar._size load_bar * 3 / ProgressBar._n load_bar /\
    0 <= f <= ProgressBar._size load_bar /\
    ProgressBar.bar load_bar f =
      str_repeat "#" (Z.to_nat f) ++
      str_repeat "-" (Z.to_nat (ProgressBar._size load_bar) - Z.to_nat f) /\
    len (ProgressBar.bar load_bar f) = ProgressBar._size load_bar.
Proof.
  split.
  - vm_compute. repeat split; congruence.
  - apply (filled_is_floor_of_exact_quotient load_bar 3);
      vm_compute; repeat split; congruence.
Defined.


Lemma complete_counts (pb : ProgressBar.t) (k : Z) :
  ProgressBar._percent pb = false ->
  ProgressBar.complete pb k =
  Ok (str_int k ++ "/" ++ str_int (ProgressBar._n pb)).
Proof. intros H. unfold ProgressBar.complete. now rewrite H. Qed.











(** C8 (as stated) fails for a negative total: nothing divides by zero,
    scope entry returns and a bar is written. *)
Lemma negative_total_does_not_fault :
  ProgressBar._n negative_total_bar <= 0 /\
  ProgressBar.__enter__ (ProgressBar.fresh negative_total_bar) =
    (ProgressBar.mkWorld negative_total_bar ("[----] (-0%)" ++ CR),
     Ok negative_total_bar) /\
  ProgressBar.update 3 (ProgressBar.fresh negative_total_bar) =
    (ProgressBar.mkWorld negative_total_bar ("[------] (-60%)" ++ CR), Ok tt).
Proof. vm_compute. repeat split; congruence. Qed.

Lemma of_int_in_range (k : Z) :
  0 <= k < 2 ^ 53 -> exists x, PyFloat.of_int k = Ok x.
Proof.
  intros Hk. destruct (Z.eq_dec k 0) as [->|Hk0].
  - eexists; reflexivity.
  - destruct (FloatFacts.repr_exists k ltac:(lia)) as (m & e & Hr).
    rewrite (FloatFacts.of_int_repr k m e Hr). eexists; reflexivity.
Qed.

Lemma of_int_raises (k : Z) (e : exn) :
  PyFloat.of_int k = Raise e -> e = OverflowError.
Proof.
  unfold PyFloat.of_int.
  destruct (PyFloat.is_finite _); congruence.
Qed.

(** C8 (amended): a ProgressBar constructed with total 0 is constructed
    without a fault; every [update(k)] on it, and scope entry, raises and
    writes nothing, and the fault is the outcome of the call.  The fault is
    [ZeroDivisionError], unless [k] or the width is too large for a double,
    which raises [OverflowError] before the division; for [k] and a width in
    [[0, 2^53)] it is [ZeroDivisionError]. *)
Theorem zero_total_faults_on_first_update
  (message : string) (size : Z) (percent : bool) (k : Z) (out : string) :
  ProgressBar._n (ProgressBar.__init__ 0 message size percent) = 0 /\
  ProgressBar.update k
      (ProgressBar.mkWorld (ProgressBar.__init__ 0 message size percent) out) =
    (ProgressBar.mkWorld (ProgressBar.__init__ 0 message size percent) out,
     Raise match PyFloat.of_int k, PyFloat.of_int size with
           | Ok _, Ok _ => ZeroDivisionError
           | _, _ => OverflowError
           end) /\
  ProgressBar.__enter__
      (ProgressBar.mkWorld (ProgressBar.__init__ 0 message size percent) out) =
    (ProgressBar.mkWorld (ProgressBar.__init__ 0 message size percent) out,
     Raise match PyFloat.of_int size with
           | Ok _ => ZeroDivisionError
           | Raise _ => OverflowError
           end) /\
  (0 <= k < 2 ^ 53 -> 0 <= size < 2 ^ 53 ->
   snd (ProgressBar.update k
          (ProgressBar.mkWorld (ProgressBar.__init__ 0 message size percent) out))
   = Raise ZeroDivisionError /\
   snd (ProgressBar.__enter__
          (ProgressBar.mkWorld (ProgressBar.__init__ 0 message size percent) out))
   = Raise ZeroDivisionError).
Proof.
  assert (Hfilled : forall j,
    ProgressBar.filled (ProgressBar.__init__ 0 message size percent) j =
    Raise match PyFloat.of_int j, PyFloat.of_int size with
          | Ok _, Ok _ => ZeroDivisionError
          | _, _ => OverflowError
          end).
  { intros j. unfold ProgressBar.filled, ProgressBar.__init__.
    cbn [ProgressBar._n ProgressBar._size].
    destruct (PyFloat.of_int j) as [xj|ej] eqn:Hj.
    - destruct (PyFloat.of_int size) as [xs|es] eqn:Hs.
      + reflexivity.
      + apply of_int_raises in Hs. subst es. reflexivity.
    - apply of_int_raises in Hj. subst ej. reflexivity. }
  assert (Hupd : forall j,
    ProgressBar.update j
      (ProgressBar.mkWorld (ProgressBar.__init__ 0 message size percent) out) =
    (ProgressBar.mkWorld (ProgressBar.__init__ 0 message size percent) out,
     Raise match PyFloat.of_int j, PyFloat.of_int size with
           | Ok _, Ok _ => ZeroDivisionError
           | _, _ => OverflowError
           end)).
  { intros j. rewrite update_outcome, Hfilled. reflexivity. }
  split; [reflexivity|]. split; [apply Hupd|]. split.
  { unfold ProgressBar.__enter__. rewrite Hupd. reflexivity. }
  intros Hk Hsize.
  destruct (of_int_in_range k Hk) as [xk Hxk].
  destruct (of_int_in_range size Hsize) as [xs Hxs].
  unfold ProgressBar.__enter__. rewrite !Hupd, Hxk, Hxs. split; reflexivity.
Qed.

(** ** Animated indicators: the two threads *)

Section AnimatedFacts.

Variable a : animation.

Lemma inv_start : inv a (start_of true).
Proof.
  unfold inv, start_of. simpl. repeat split; try discriminate.
  exists O. split; reflexivity.
Qed.

Lemma farewell_not_joined (c : ctl_pc) (th : thread_pc) :
  (joined c = true -> th = TStopped) -> th <> TStopped -> farewell a c = [].
Proof.
  intros Hj Hth. destruct c; try reflexivity.
  exfalso. apply Hth, Hj. reflexivity.
Qed.

Lemma frame_text_some (i : Z) (s : string) :
  anim_frame a i = Some s -> frame_text a i = s.
Proof. intros H. unfold frame_text. now rewrite H. Qed.

(** The parts of the invariant that only look at the program points. *)
Ltac inv_points Hinit Hjoin :=
  repeat split; try discriminate; try assumption;
  try (let E := fresh "E" in
       intros E;
       first [ apply Hinit in E; discriminate
             | apply Hjoin in E; discriminate
             | apply Hinit; exact E
             | apply Hjoin; exact E ]).

(** Every step keeps the invariant. *)
Lemma inv_step (s s' : sys) : inv a s -> step a s s' -> inv a s'.
Proof.
  intros (Hflag & Hinit & Hjoin & k & Hidx & Htr) Hstep.
  destruct Hstep; unfold inv; cbn [run_flag thread ctl trace] in *.
  - (* enter *)
    simpl in Hidx. subst k. inv_points Hinit Hjoin.
    exists O. split; [reflexivity | exact Htr].
  - (* body *)
    inv_points Hinit Hjoin. exists k. now split.
  - (* body ends *)
    inv_points Hinit Hjoin. exists k. now split.
  - (* self._run = False *)
    inv_points Hinit Hjoin. exists k. now split.
  - (* join *)
    inv_points Hinit Hjoin. exists k. now split.
  - (* final print *)
    assert (th = TStopped) by (apply Hjoin; reflexivity). subst th.
    inv_points Hinit Hjoin.
    exists k. split; [exact I|].
    rewrite Htr. simpl. now rewrite app_nil_r.
  - (* flag read true *)
    inv_points Hinit Hjoin. exists k. now split.
  - (* flag read false *)
    inv_points Hinit Hjoin. exists k. now split.
  - (* print *)
    assert (Hfw : farewell a c = [])
      by (apply (farewell_not_joined c (TPrint i));
          [assumption | discriminate]).
    inv_points Hinit Hjoin.
    exists k. simpl in Hidx. subst i. split; [reflexivity|].
    rewrite Htr, Hfw. simpl. rewrite !app_nil_r.
    now rewrite (frame_text_some _ _ H).
  - (* the lookup raises *)
    inv_points Hinit Hjoin. exists k. now split.
  - (* sleep *)
    assert (Hfw : farewell a c = [])
      by (apply (farewell_not_joined c (TSleep i));
          [assumption | discriminate]).
    inv_points Hinit Hjoin.
    exists (S k). simpl in Hidx. split; [exact Hidx|].
    rewrite Htr, Hfw. simpl. rewrite !app_nil_r, <- app_assoc. reflexivity.
Qed.

Lemma inv_steps (n : nat) (s0 s : sys) :
  steps a n s0 s -> inv a s0 -> inv a s.
Proof.
  intros Hn H0. induction Hn as [s | n s s' s'' _ IH Hstep].
  - exact H0.
  - eapply inv_step; [apply IH; exact H0 | exact Hstep].
Qed.

Lemma inv_reachable (s : sys) :
  reachable_from a (start_of true) s -> inv a s.
Proof. intros [n Hn]. exact (inv_steps n _ _ Hn inv_start). Qed.

Lemma steps_trans (n m : nat) (s1 s2 s3 : sys) :
  steps a n s1 s2 -> steps a m s2 s3 -> steps a (n + m) s1 s3.
Proof.
  intros H12 H23. induction H23 as [s | m s s' s'' _ IH Hstep].
  - now rewrite Nat.add_0_r.
  - rewrite Nat.add_succ_r. eapply steps_S; [apply IH; exact H12 | exact Hstep].
Qed.

(** *** The flag *)




(** *** Leaving the scope *)






End AnimatedFacts.

(** *** The three indicators *)

Lemma flag_of_true (ind : indicator) : flag_of ind = true.
Proof. destruct ind; reflexivity. Qed.

Lemma next_cycles (ind : indicator) (i : Z) :
  anim_next (animation_of ind) i = (i + 1) mod 4.
Proof. destruct ind; reflexivity. Qed.

Lemma interval_spec (ind : indicator) :
  anim_interval (animation_of ind) = spec_interval ind.
Proof. destruct ind; reflexivity. Qed.

Lemma run_index_cycles (ind : indicator) (t : nat) :
  run_index (animation_of ind) t = Z.of_nat (t mod 4).
Proof.
  induction t as [|t IH].
  - reflexivity.
  - simpl run_index. rewrite next_cycles, IH.
    rewrite !Nat2Z.inj_mod, Nat2Z.inj_succ.
    change (Z.of_nat 4) with 4.
    rewrite Z.add_mod_idemp_l by lia. f_equal. lia.
Qed.

Lemma frame_spec (ind : indicator) (t : nat) :
  anim_frame (animation_of ind) (Z.of_nat (t mod 4)) = Some (spec_frame ind t).
Proof.
  pose proof (Nat.mod_upper_bound t 4 ltac:(lia)) as Hlt.
  destruct ind as [m e | m e | m e]; unfold spec_frame;
    destruct (t mod 4)%nat as [|[|[|[|j]]]]; try lia; reflexivity.
Qed.

Lemma frame_text_spec (ind : indicator) (t : nat) :
  frame_text (animation_of ind) (run_index (animation_of ind) t)
  = spec_frame ind t.
Proof.
  rewrite run_index_cycles. unfold frame_text. now rewrite frame_spec.
Qed.

Lemma spec_events_succ (ind : indicator) (k : nat) :
  spec_events ind (S k) =
  (spec_events ind k
     ++ [Write (spec_frame ind k); Sleep (spec_interval ind)])%list.
Proof.
  unfold spec_events. rewrite seq_S, flat_map_app. reflexivity.
Qed.

Lemma run_events_spec (ind : indicator) (k : nat) :
  run_events (animation_of ind) k = spec_events ind k.
Proof.
  induction k as [|k IH].
  - reflexivity.
  - simpl run_events.
    now rewrite IH, spec_events_succ, frame_text_spec, interval_spec.
Qed.

(** The trace of any state: complete turns, perhaps a frame already written
    in the current turn, and the text of [__exit__] once it has returned. *)
Lemma trace_shape (ind : indicator) (s : sys) :
  reachable_from (animation_of ind) (launched ind) s ->
  exists k pending,
    trace s = (spec_events ind k ++ pending
                 ++ farewell (animation_of ind) (ctl s))%list /\
    (pending = [] \/ pending = [Write (spec_frame ind k)]) /\
    (thread s = TStopped -> pending = []).
Proof.
  intros Hreach. unfold launched in Hreach. rewrite flag_of_true in Hreach.
  destruct (inv_reachable _ _ Hreach) as (_ & _ & _ & k & _ & Htr).
  exists k. rewrite Htr, <- run_events_spec.
  destruct (thread s); simpl thread_trace.
  1,2,3,5: exists []; repeat split; auto.
  exists [Write (spec_frame ind k)].
  rewrite <- frame_text_spec, <- app_assoc. repeat split; auto.
  discriminate.
Qed.

(** ** The terminal *)

Lemma text_of_app (l1 l2 : list event) :
  text_of (l1 ++ l2) = text_of l1 ++ text_of l2.
Proof.
  induction l1 as [|[s|ms] l1 IH]; simpl.
  - reflexivity.
  - now rewrite IH, str_app_assoc.
  - exact IH.
Qed.

Lemma show_app (sc : screen) (s1 s2 : string) :
  show sc (s1 ++ s2) = show (show sc s1) s2.
Proof.
  revert sc. induction s1 as [|c s1 IH]; intros sc; simpl.
  - reflexivity.
  - apply IH.
Qed.

Lemma plain_app (s1 s2 : string) :
  plain (s1 ++ s2) = plain s1 && plain s2.
Proof.
  induction s1 as [|c s1 IH]; simpl.
  - reflexivity.
  - now rewrite IH, andb_assoc.
Qed.

Lemma plain_spaces (n : nat) : plain (str_repeat " " n) = true.
Proof. induction n as [|n IH]; simpl; [reflexivity | exact IH]. Qed.

(** Writing a character where a prefix ends replaces the next one. *)
Lemma overwrite_after_prefix (pre cur : string) (c : ascii) :
  overwrite (pre ++ cur) (String.length pre) c =
  pre ++ String c (str_tail cur).
Proof.
  induction pre as [|x pre IH]; simpl.
  - destruct cur; reflexivity.
  - now rewrite IH.
Qed.

(** A plain text at least as long as the rest of the line replaces it. *)
Lemma show_plain (scr : list string) (s pre cur : string) :
  plain s = true -> (String.length cur <= String.length s)%nat ->
  show (mkScreen scr (pre ++ cur) (String.length pre)) s =
  mkScreen scr (pre ++ s) (String.length pre + String.length s).
Proof.
  revert pre cur. induction s as [|c s IH]; intros pre cur Hplain Hlen.
  - destruct cur; [|simpl in Hlen; lia]. simpl. now rewrite Nat.add_0_r.
  - simpl in Hplain. apply andb_prop in Hplain. destruct Hplain as [Hc Hs].
    apply andb_prop in Hc. destruct Hc as [Hcr Hlf].
    apply negb_true_iff in Hcr. apply negb_true_iff in Hlf.
    simpl show. unfold put. rewrite Hcr, Hlf. simpl scrolled. simpl current.
    simpl cursor. rewrite overwrite_after_prefix.
    replace (pre ++ String c (str_tail cur))
      with ((pre ++ String c "") ++ (str_tail cur))
      by (now rewrite str_app_assoc).
    replace (S (String.length pre)) with (String.length (pre ++ String c ""))
      by (rewrite str_length_app; simpl; lia).
    rewrite IH.
    + rewrite str_app_assoc, str_length_app. simpl. f_equal. lia.
    + exact Hs.
    + destruct cur; simpl in *; lia.
Qed.

(** A plain text written from the start of the line, then a carriage
    return: the line shows the text, the cursor is back at the start. *)
Lemma show_frame (scr : list string) (cur content : string) :
  plain content = true -> (String.length cur <= String.length content)%nat ->
  show (mkScreen scr cur 0) (content ++ CR) = mkScreen scr content 0.
Proof.
  intros Hp Hl. rewrite show_app.
  pose proof (show_plain scr content "" cur Hp Hl) as H. simpl in H.
  rewrite H. reflexivity.
Qed.

(** A plain text written from the start of the line, then a line feed: the
    text is a line for good. *)
Lemma show_last_line (scr : list string) (cur content : string) :
  plain content = true -> (String.length cur <= String.length content)%nat ->
  show (mkScreen scr cur 0) (content ++ LF) =
  mkScreen (scr ++ [content]) "" 0.
Proof.
  intros Hp Hl. rewrite show_app.
  pose proof (show_plain scr content "" cur Hp Hl) as H. simpl in H.
  rewrite H. reflexivity.
Qed.

(** Every frame is a plain text of the same width and a carriage return. *)
Lemma spec_frame_shape (ind : indicator) (t : nat) :
  exists content,
    spec_frame ind t = content ++ CR /\
    String.length content = spec_width ind /\
    (plain (message_of ind) = true -> plain content = true).
Proof.
  pose proof (Nat.mod_upper_bound t 4 ltac:(lia)) as Hlt.
  unfold spec_frame. set (j := (t mod 4)%nat) in *. clearbody j.
  destruct ind as [m e | m e | m e]; unfold spec_width, message_of;
    destruct j as [|[|[|[|j]]]]; try lia; simpl.
  1-8: match goal with
       | |- exists c, String ?g _ = _ /\ _ => exists (String g (String " " m))
       end; repeat split; auto.
  - exists (m ++ "   "). rewrite str_app_assoc, str_length_app, plain_app.
    repeat split; auto. intros ->; reflexivity.
  - exists (m ++ ".  "). rewrite str_app_assoc, str_length_app, plain_app.
    repeat split; auto. intros ->; reflexivity.
  - exists (m ++ ".. "). rewrite str_app_assoc, str_length_app, plain_app.
    repeat split; auto. intros ->; reflexivity.
  - exists (m ++ "..."). rewrite str_app_assoc, str_length_app, plain_app.
    repeat split; auto. intros ->; reflexivity.
Qed.

(** While the animation runs the terminal holds one line, at most a frame
    wide, and the cursor is at its start. *)
Lemma show_animation (ind : indicator) (k : nat) :
  plain (message_of ind) = true ->
  exists cur,
    show blank_screen (text_of (spec_events ind k)) = mkScreen [] cur 0 /\
    (String.length cur <= spec_width ind)%nat.
Proof.
  intros Hplain. induction k as [|k (cur & Hshow & Hlen)].
  - exists "". split; [reflexivity | simpl; lia].
  - destruct (spec_frame_shape ind k) as (content & Hfr & Hw & Hp).
    exists content. rewrite spec_events_succ, text_of_app, show_app, Hshow.
    simpl text_of. rewrite str_app_nil_r, Hfr.
    split; [|lia]. apply show_frame; [auto | lia].
Qed.

(** ** Properties of the animated indicators *)

Lemma steps_first (a : animation) (n : nat) (s s' s'' : sys) :
  step a s s' -> steps a n s' s'' -> steps a (S n) s s''.
Proof.
  intros H1 Hn.
  change (S n) with (1 + n)%nat.
  apply (steps_trans a 1 n s s' s''); [|exact Hn].
  eapply steps_S; [apply steps_O | exact H1].
Qed.

(** One frame, then the body returns and the scope is left. *)
Lemma go_left_reachable :
  reachable_from (animation_of go) (launched go) go_left.
Proof.
  exists 9%nat. unfold launched, start_of, go_left.
  eapply steps_first; [apply step_enter|].
  eapply steps_first; [apply step_check_true|].
  eapply steps_first; [eapply step_print; reflexivity|].
  eapply steps_first; [apply step_sleep|].
  eapply steps_first; [apply (step_body_end _ _ _ _ Returns)|].
  eapply steps_first; [apply step_exit_stop|].
  eapply steps_first; [apply step_check_false|].
  eapply steps_first; [apply step_exit_join|].
  eapply steps_first; [apply step_exit_print|].
  apply steps_O.
Qed.


Lemma reachable_inv (ind : indicator) (s : sys) :
  reachable_from (animation_of ind) (launched ind) s ->
  inv (animation_of ind) s.
Proof.
  intros H. unfold launched in H. rewrite flag_of_true in H.
  apply inv_reachable. exact H.
Qed.






(** C7: the frame of each turn is a fixed function of the turn number and
    the message.  [Bouncer] and [Spinner] write the glyph, a space, the
    message and a carriage return, the glyph cycling through [. : ' :] and
    [- \ | /]; [Ellipsis] writes the message, [i] dots padded with spaces to
    three characters and a carriage return, [i] cycling through 0..3; the
    index advances modulo 4 and the thread sleeps 100 ms ([Ellipsis]:
    500 ms) after each frame.  So everything the background thread has done
    in a state of the [with] statement is [k] such turns, perhaps the frame
    of turn [k] already written, followed by the text of [__exit__] once it
    has returned. *)
Theorem frames_follow_the_cycle (ind : indicator) (s : sys) :
  reachable_from (animation_of ind) (launched ind) s ->
  (forall t : nat,
     run_index (animation_of ind) t = Z.of_nat (t mod 4) /\
     anim_frame (animation_of ind) (run_index (animation_of ind) t)
     = Some (spec_frame ind t)) /\
  (forall i, anim_next (animation_of ind) i = (i + 1) mod 4) /\
  anim_interval (animation_of ind) = spec_interval ind /\
  exists k pending,
    trace s = (spec_events ind k ++ pending
                 ++ farewell (animation_of ind) (ctl s))%list /\
    (pending = [] \/ pending = [Write (spec_frame ind k)]) /\
    (thread s = TStopped -> pending = []).
Proof.
  intros Hreach.
  split.
  { intros t. split; [apply run_index_cycles|].
    rewrite run_index_cycles. apply frame_spec. }
  split; [apply next_cycles|].
  split; [apply interval_spec|].
  apply trace_shape. exact Hreach.
Qed.

Lemma frames_follow_the_cycle_witness :
  reachable_from (animation_of go) (launched go) go_left /\
  exists k pending,
    trace go_left = (spec_events go k ++ pending
                       ++ farewell (animation_of go) (ctl go_left))%list /\
    (pending = [] \/ pending = [Write (spec_frame go k)]) /\
    (thread go_left = TStopped -> pending = []).
Proof.
  split; [exact go_left_reachable|].
  apply (frames_follow_the_cycle go go_left go_left_reachable).
Defined.

(** The text [__exit__] prints, by case. *)
Lemma final_keeps_message (ind : indicator) :
  erase_of ind = false -> message_of ind <> "" ->
  anim_final (animation_of ind) = (message_of ind ++ padding ind) ++ LF.
Proof.
  intros He Hm.
  destruct ind as [m e | m e | m e]; simpl in *; subst e;
    (destruct m as [|c m]; [congruence|]);
    unfold _CharacterIterator.final, Ellipsis.final; simpl;
    now rewrite str_app_assoc.
Qed.

Lemma final_erases (ind : indicator) :
  erase_of ind = true \/ message_of ind = "" ->
  anim_final (animation_of ind) = str_repeat " " (spec_width ind) ++ CR.
Proof.
  intros H.
  assert (Hc : negb (erase_of ind) && truthy (message_of ind) = false).
  { destruct H as [-> | ->]; [reflexivity | apply andb_false_r]. }
  destruct ind as [m e | m e | m e]; simpl in *;
    unfold _CharacterIterator.final, Ellipsis.final; simpl; rewrite Hc;
    unfold str_mul, len.
  - replace (Z.to_nat (Z.of_nat (String.length m) + 2))
      with (S (S (String.length m))) by lia. reflexivity.
  - replace (Z.to_nat (Z.of_nat (String.length m) + 2))
      with (S (S (String.length m))) by lia. reflexivity.
  - replace (Z.to_nat (Z.of_nat (String.length m) + 3))
      with (String.length m + 3)%nat by lia. reflexivity.
Qed.

Lemma padded_message (ind : indicator) :
  String.length (message_of ind ++ padding ind) = spec_width ind /\
  (plain (message_of ind) = true ->
   plain (message_of ind ++ padding ind) = true).
Proof.
  destruct ind as [m e | m e | m e]; simpl;
    rewrite str_length_app, plain_app; simpl;
    (split; [lia | intros ->; reflexivity]).
Qed.

(** The trace once the scope is left: complete turns, then the final
    text. *)
Lemma left_trace (ind : indicator) (s : sys) (o : outcome) :
  reachable_from (animation_of ind) (launched ind) s -> ctl s = CLeft o ->
  exists k,
    trace s =
    (spec_events ind k ++ [Write (anim_final (animation_of ind))])%list.
Proof.
  intros Hreach Hc.
  destruct (trace_shape ind s Hreach) as (k & pending & Htr & _ & Hstop).
  pose proof (reachable_inv ind s Hreach) as (_ & _ & Hjoin & _).
  rewrite Hc in Hjoin. rewrite (Hstop (Hjoin eq_refl)), Hc in Htr.
  exists k. exact Htr.
Qed.

(** C4 (as stated) fails: [Bouncer("Go", erase=False)] prints the message
    and two spaces before the line feed, not the message alone. *)
Lemma exit_pads_the_message :
  erase_of go = false /\ message_of go <> "" /\
  anim_final (animation_of go) = "Go  " ++ LF /\
  anim_final (animation_of go) <> message_of go ++ LF /\
  trace go_left = [Write (". Go" ++ CR); Sleep 100; Write ("Go  " ++ LF)].
Proof. vm_compute. repeat split; congruence. Qed.

(** C4 (amended): for an animated indicator constructed with [erase] false
    and a non-empty message, scope exit prints the message followed by two
    spaces (three for [Ellipsis]) and a line feed, as the last thing
    written.  When the message holds no carriage return and no line feed,
    the terminal then shows a single finished line, the message followed by
    those spaces, with no glyph or dot left, and the cursor at the start of
    an empty line. *)
Theorem exit_leaves_padded_message
  (ind : indicator) (s : sys) (o : outcome) :
  erase_of ind = false -> message_of ind <> "" ->
  reachable_from (animation_of ind) (launched ind) s -> ctl s = CLeft o ->
  anim_final (animation_of ind) = (message_of ind ++ padding ind) ++ LF /\
  (exists tr,
     trace s = (tr ++ [Write ((message_of ind ++ padding ind) ++ LF)])%list) /\
  (plain (message_of ind) = true ->
   show blank_screen (text_of (trace s)) =
   mkScreen [message_of ind ++ padding ind] "" 0).
Proof.
  intros He Hm Hreach Hc.
  pose proof (final_keeps_message ind He Hm) as Hfinal.
  destruct (left_trace ind s o Hreach Hc) as (k & Htr).
  rewrite Hfinal in Htr.
  split; [exact Hfinal|]. split; [eexists; exact Htr|].
  intros Hplain.
  destruct (show_animation ind k Hplain) as (cur & Hshow & Hlen).
  destruct (padded_message ind) as (Hw & Hp).
  rewrite Htr, text_of_app, show_app, Hshow. simpl text_of.
  rewrite str_app_nil_r.
  apply (show_last_line [] cur); [auto | lia].
Qed.

Lemma exit_leaves_padded_message_witness :
  (erase_of go = false /\ message_of go <> "" /\
   reachable_from (animation_of go) (launched go) go_left /\
   ctl go_left = CLeft Returns) /\
  anim_final (animation_of go) = (message_of go ++ padding go) ++ LF /\
  (exists tr,
     trace go_left =
     (tr ++ [Write ((message_of go ++ padding go) ++ LF)])%list) /\
  (plain (message_of go) = true ->
   show blank_screen (text_of (trace go_left)) =
   mkScreen [message_of go ++ padding go] "" 0).
Proof.
  split.
  - split; [reflexivity|]. split; [discriminate|].
    split; [exact go_left_reachable | reflexivity].
  - apply (exit_leaves_padded_message go go_left Returns);
      [reflexivity | discriminate | exact go_left_reachable | reflexivity].
Defined.

(** C5: for an animated indicator constructed with [erase] true, or with an
    empty message, scope exit prints a run of spaces as wide as the frame
    content (glyph, separator and message; for [Ellipsis] message and dot
    field), then a carriage return and no line feed, as the last thing
    written; every frame is that wide.  When the message holds no carriage
    return and no line feed, the terminal then shows that run of spaces as
    its only line, unfinished, with the cursor at its start. *)
Theorem exit_blanks_the_line (ind : indicator) :
  erase_of ind = true \/ message_of ind = "" ->
  anim_final (animation_of ind) = str_repeat " " (spec_width ind) ++ CR /\
  String.length (str_repeat " " (spec_width ind)) = spec_width ind /\
  plain (str_repeat " " (spec_width ind)) = true /\
  (forall t, exists content,
     anim_frame (animation_of ind) (run_index (animation_of ind) t)
     = Some (content ++ CR) /\
     (String.length content
      <= String.length (str_repeat " " (spec_width ind)))%nat) /\
  (forall s o,
     reachable_from (animation_of ind) (launched ind) s -> ctl s = CLeft o ->
     (exists tr,
        trace s =
        (tr ++ [Write (str_repeat " " (spec_width ind) ++ CR)])%list) /\
     (plain (message_of ind) = true ->
      show blank_screen (text_of (trace s)) =
      mkScreen [] (str_repeat " " (spec_width ind)) 0)).
Proof.
  intros H.
  pose proof (final_erases ind H) as Hfinal.
  split; [exact Hfinal|].
  split; [apply (str_repeat_length " ")|].
  split; [apply plain_spaces|].
  split.
  { intros t. destruct (spec_frame_shape ind t) as (content & Hfr & Hw & _).
    exists content. rewrite run_index_cycles, frame_spec, Hfr.
    split; [reflexivity|]. rewrite (str_repeat_length " "). lia. }
  intros s o Hreach Hc.
  destruct (left_trace ind s o Hreach Hc) as (k & Htr).
  rewrite Hfinal in Htr.
  split; [eexists; exact Htr|].
  intros Hplain.
  destruct (show_animation ind k Hplain) as (cur & Hshow & Hlen).
  rewrite Htr, text_of_app, show_app, Hshow. simpl text_of.
  rewrite str_app_nil_r.
  apply show_frame; [apply plain_spaces|].
  rewrite (str_repeat_length " "). exact Hlen.
Qed.

Lemma exit_blanks_the_line_witness :
  (erase_of gone = true \/ message_of gone = "") /\
  anim_final (animation_of gone) = str_repeat " " (spec_width gone) ++ CR /\
  String.length (str_repeat " " (spec_width gone)) = spec_width gone.
Proof.
  split; [left; reflexivity|].
  split; apply (exit_blanks_the_line gone); left; reflexivity.
Defined.

(** * Part III: further properties *)

(** ** The bar *)

Lemma str_repeat_0 (s : string) : str_repeat s 0 = "".
Proof. reflexivity. Qed.

Lemma str_mul_nonpos (s : string) (n : Z) : n <= 0 -> str_mul s n = "".
Proof.
  intros H. unfold str_mul. replace (Z.to_nat n) with O by lia. reflexivity.
Qed.

Lemma bar_len (pb : ProgressBar.t) (f : Z) :
  len (ProgressBar.bar pb f) = Z.max 0 f + Z.max 0 (ProgressBar._size pb - f).
Proof.
  unfold len, ProgressBar.bar, str_mul.
  rewrite str_length_app, !str_repeat_length. lia.
Qed.


(** X2: within the range of exact doubles the fill count never decreases
    when [k] grows: the bar does not shrink as work completes. *)
Theorem filled_is_monotone (pb : ProgressBar.t) (k1 k2 : Z) :
  0 < ProgressBar._n pb < 2 ^ 53 ->
  0 <= ProgressBar._size pb < 2 ^ 53 ->
  0 <= k1 <= k2 -> k2 < 2 ^ 53 ->
  ProgressBar._size pb * k2 < 2 ^ 53 ->
  exists f1 f2,
    ProgressBar.filled pb k1 = Ok f1 /\ ProgressBar.filled pb k2 = Ok f2 /\
    f1 <= f2.
Proof.
  intros Hn Hsize Hk Hk2 Hprod.
  exists (ProgressBar._size pb * k1 / ProgressBar._n pb),
         (ProgressBar._size pb * k2 / ProgressBar._n pb).
  split; [apply FloatFacts.filled_exact; nia|].
  split; [apply FloatFacts.filled_exact; nia|].
  apply Z.div_le_mono; nia.
Qed.

Lemma filled_is_monotone_witness :
  (0 < ProgressBar._n load_bar < 2 ^ 53 /\
   0 <= ProgressBar._size load_bar < 2 ^ 53 /\
   0 <= 1 <= 3 /\ 3 < 2 ^ 53 /\
   ProgressBar._size load_bar * 3 < 2 ^ 53) /\
  exists f1 f2,
    ProgressBar.filled load_bar 1 = Ok f1 /\
    ProgressBar.filled load_bar 3 = Ok f2 /\ f1 <= f2.
Proof.
  split.
  - vm_compute. repeat split; congruence.
  - apply (filled_is_monotone load_bar 1 3);
      vm_compute; repeat split; congruence.
Defined.

(** X3: within the range of exact doubles and for a width of at least one
    character, the bar of [update(k)], [0 <= k <= n], is full only at
    [k = n], and it is empty exactly as long as [size * k < n]. *)
Theorem bar_is_full_only_at_completion (pb : ProgressBar.t) (k : Z) :
  0 < ProgressBar._n pb < 2 ^ 53 ->
  0 < ProgressBar._size pb < 2 ^ 53 ->
  0 <= k <= ProgressBar._n pb ->
  ProgressBar._size pb * ProgressBar._n pb < 2 ^ 53 ->
  (ProgressBar.filled pb k = Ok (ProgressBar._size pb)
   <-> k = ProgressBar._n pb) /\
  (ProgressBar.filled pb k = Ok 0
   <-> ProgressBar._size pb * k < ProgressBar._n pb).
Proof.
  intros Hn Hsize Hk Hprod.
  rewrite FloatFacts.filled_exact by nia.
  set (n := ProgressBar._n pb) in *. set (size := ProgressBar._size pb) in *.
  split; split.
  - intros H. injection H as H.
    pose proof (Z.mul_div_le (size * k) n ltac:(lia)) as Hle.
    rewrite H in Hle. nia.
  - intros ->. f_equal. apply Z.div_mul. lia.
  - intros H. injection H as H.
    apply Z.div_small_iff in H; lia.
  - intros H. f_equal. apply Z.div_small. nia.
Qed.

Lemma bar_is_full_only_at_completion_witness :
  (0 < ProgressBar._n load_bar < 2 ^ 53 /\
   0 < ProgressBar._size load_bar < 2 ^ 53 /\
   0 <= 3 <= ProgressBar._n load_bar /\
   ProgressBar._size load_bar * ProgressBar._n load_bar < 2 ^ 53) /\
  (ProgressBar.filled load_bar 3 = Ok (ProgressBar._size load_bar)
   <-> 3 = ProgressBar._n load_bar).
Proof.
  split.
  - vm_compute. repeat split; congruence.
  - apply (bar_is_full_only_at_completion load_bar 3);
      vm_compute; repeat split; congruence.
Defined.

(** X4: [update] does not clamp [k].  Within the range of exact doubles,
    [update(k)] with [k >= n] fills [floor(size * k / n) >= size]
    characters; the bar is then that many ['#'] and no ['-'], and it is
    wider than [size] as soon as [size * k >= (size + 1) * n]. *)
Theorem update_beyond_total_overshoots (pb : ProgressBar.t) (k : Z) :
  0 < ProgressBar._n pb < 2 ^ 53 ->
  0 <= ProgressBar._size pb < 2 ^ 53 ->
  ProgressBar._n pb <= k < 2 ^ 53 ->
  ProgressBar._size pb * k < 2 ^ 53 ->
  exists f,
    ProgressBar.filled pb k = Ok f /\
    f = ProgressBar._size pb * k / ProgressBar._n pb /\
    ProgressBar._size pb <= f /\
    ProgressBar.bar pb f = str_repeat "#" (Z.to_nat f) /\
    len (ProgressBar.bar pb f) = f /\
    (ProgressBar._size pb < f
     <-> (ProgressBar._size pb + 1) * ProgressBar._n pb
         <= ProgressBar._size pb * k).
Proof.
  intros Hn Hsize Hk Hprod.
  set (n := ProgressBar._n pb) in *. set (size := ProgressBar._size pb) in *.
  exists (size * k / n).
  assert (Hf : size <= size * k / n).
  { apply Z.div_le_lower_bound; nia. }
  split; [apply FloatFacts.filled_exact; fold n size; lia|].
  split; [reflexivity|]. split; [exact Hf|]. split.
  { unfold ProgressBar.bar. fold size.
    rewrite (str_mul_nonpos "-") by lia. apply str_app_nil_r. }
  split.
  { rewrite bar_len. fold size. lia. }
  split.
  - intros H. pose proof (Z.mul_div_le (size * k) n ltac:(lia)). nia.
  - intros H.
    assert (size + 1 <= size * k / n); [|lia].
    apply Z.div_le_lower_bound; nia.
Qed.

Lemma update_beyond_total_overshoots_witness :
  (0 < ProgressBar._n load_bar < 2 ^ 53 /\
   0 <= ProgressBar._size load_bar < 2 ^ 53 /\
   ProgressBar._n load_bar <= 8 < 2 ^ 53 /\
   ProgressBar._size load_bar * 8 < 2 ^ 53) /\
  exists f,
    ProgressBar.filled load_bar 8 = Ok f /\
    f = ProgressBar._size load_bar * 8 / ProgressBar._n load_bar /\
    ProgressBar._size load_bar <= f /\
    ProgressBar.bar load_bar f = str_repeat "#" (Z.to_nat f) /\
    len (ProgressBar.bar load_bar f) = f /\
    (ProgressBar._size load_bar < f
     <-> (ProgressBar._size load_bar + 1) * ProgressBar._n load_bar
         <= ProgressBar._size load_bar * 8).
Proof.
  split.
  - vm_compute. repeat split; congruence.
  - apply (update_beyond_total_overshoots load_bar 8);
      vm_compute; repeat split; congruence.
Defined.

(** ** The scope of a ProgressBar *)



Lemma rendered_first (pb : ProgressBar.t) :
  0 < ProgressBar._n pb < 2 ^ 53 -> 0 <= ProgressBar._size pb < 2 ^ 53 ->
  ProgressBar.filled pb 0 = Ok 0 /\
  ProgressBar.complete pb 0 =
    Ok (if ProgressBar._percent pb then "0%"
        else "0/" ++ str_int (ProgressBar._n pb)).
Proof.
  intros Hn Hsize. split.
  - rewrite FloatFacts.filled_exact by lia.
    now rewrite Z.mul_0_r, Z.div_0_l by lia.
  - destruct (ProgressBar._percent pb) eqn:Hp.
    + apply FloatFacts.complete_percent_zero; [lia | exact Hp].
    + rewrite complete_counts by exact Hp. reflexivity.
Qed.


(** X5: for a total [0 < n < 2^53] and a width [0 <= size < 2^53], scope
    entry writes one line with an empty bar ([size] times ['-'], no ['#'])
    and the suffix ["0%"] (or ["0/n"]), ends it with a carriage return, and
    returns the instance itself. *)
Theorem enter_renders_empty_bar (pb : ProgressBar.t) (out : string) :
  0 < ProgressBar._n pb < 2 ^ 53 ->
  0 <= ProgressBar._size pb < 2 ^ 53 ->
  ProgressBar.__enter__ (ProgressBar.mkWorld pb out) =
    (ProgressBar.mkWorld pb
       (out ++ ProgressBar.line pb 0
                 (if ProgressBar._percent pb then "0%"
                  else "0/" ++ str_int (ProgressBar._n pb))),
     Ok pb) /\
  ProgressBar.bar pb 0 = str_repeat "-" (Z.to_nat (ProgressBar._size pb)).
Proof.
  intros Hn Hsize.
  destruct (rendered_first pb Hn Hsize) as [Hf Hc].
  split.
  - unfold ProgressBar.__enter__. rewrite update_outcome, Hf, Hc. reflexivity.
  - unfold ProgressBar.bar, str_mul. now rewrite Z.sub_0_r.
Qed.

Lemma enter_renders_empty_bar_witness :
  (0 < ProgressBar._n demo_bar < 2 ^ 53 /\
   0 <= ProgressBar._size demo_bar < 2 ^ 53) /\
  ProgressBar.__enter__ (ProgressBar.mkWorld demo_bar "") =
    (ProgressBar.mkWorld demo_bar
       ("" ++ ProgressBar.line demo_bar 0
                 (if ProgressBar._percent demo_bar then "0%"
                  else "0/" ++ str_int (ProgressBar._n demo_bar))),
     Ok demo_bar).
Proof.
  split.
  - vm_compute. repeat split; congruence.
  - apply (enter_renders_empty_bar demo_bar "");
      vm_compute; repeat split; congruence.
Defined.




(** X7: a scope on a ProgressBar with total 0 (and a width in
    [[0, 2^53)]) writes nothing at all: [__enter__] raises
    [ZeroDivisionError], so neither the body nor [__exit__] runs, no line
    feed is written, and the fault is the outcome of the scope. *)
Theorem zero_total_scope_writes_nothing
  (message : string) (size : Z) (percent : bool) (ks : list Z) (out : string) :
  0 <= size < 2 ^ 53 ->
  with_scope ks
    (ProgressBar.mkWorld (ProgressBar.__init__ 0 message size percent) out) =
  (ProgressBar.mkWorld (ProgressBar.__init__ 0 message size percent) out,
   Raise ZeroDivisionError).
Proof.
  intros Hsize. unfold with_scope, ProgressBar.__enter__.
  rewrite update_outcome.
  assert (Hf : ProgressBar.filled (ProgressBar.__init__ 0 message size percent) 0
               = Raise ZeroDivisionError).
  { unfold ProgressBar.filled, ProgressBar.__init__.
    cbn [ProgressBar._n ProgressBar._size].
    destruct (of_int_in_range size Hsize) as [xs Hxs]. rewrite Hxs.
    reflexivity. }
  rewrite Hf. reflexivity.
Qed.

Lemma zero_total_scope_writes_nothing_witness :
  0 <= 40 < 2 ^ 53 /\
  with_scope demo_updates
    (ProgressBar.mkWorld (ProgressBar.__init__ 0 "It can load!" 40 true) "") =
  (ProgressBar.mkWorld (ProgressBar.__init__ 0 "It can load!" 40 true) "",
   Raise ZeroDivisionError).
Proof.
  split.
  - vm_compute. repeat split; congruence.
  - apply (zero_total_scope_writes_nothing "It can load!" 40 true demo_updates "").
    vm_compute. repeat split; congruence.
Defined.

(** ** The ProgressBar on the terminal *)



















(** The tail an overshooting [update] leaves: after
    [with ProgressBar(4, "Load", size=4) as pb: pb.update(8)] the finished
    line is the full bar followed by the last four characters of the longer
    line. *)
Example overshoot_leaves_its_tail :
  show blank_screen
    (ProgressBar.stdout (fst (with_scope [8] (ProgressBar.fresh load_bar))))
  = mkScreen ["Load [####] (100%)00%)"] "" 0.
Proof. vm_compute. reflexivity. Qed.

(** ** The animation on the terminal *)




(** ** After the stop request *)

Lemma writes_app (l1 l2 : list event) :
  writes (l1 ++ l2) = (writes l1 + writes l2)%nat.
Proof.
  induction l1 as [|[s|ms] l1 IH]; simpl; [reflexivity | now rewrite IH | exact IH].
Qed.

Lemma sleeps_app (l1 l2 : list event) :
  sleeps (l1 ++ l2) = (sleeps l1 + sleeps l2)%nat.
Proof.
  induction l1 as [|[s|ms] l1 IH]; simpl; [reflexivity | exact IH | now rewrite IH].
Qed.

(** With the flag false a step never adds to what is written plus what is
    still owed. *)
Lemma stopping_step (a : animation) (s s' : sys) :
  run_flag s = false -> step a s s' ->
  run_flag s' = false /\
  (writes (trace s') + frames_due (thread s') + finals_due (ctl s')
   <= writes (trace s) + frames_due (thread s) + finals_due (ctl s))%nat /\
  (writes (trace s') + frames_due (thread s')
   <= writes (trace s) + frames_due (thread s)
      + (finals_due (ctl s) - finals_due (ctl s')))%nat /\
  (sleeps (trace s') + sleeps_due (thread s')
   <= sleeps (trace s) + sleeps_due (thread s))%nat.
Proof.
  intros Hflag Hstep.
  destruct Hstep; simpl in *; try discriminate;
    rewrite ?writes_app, ?sleeps_app; simpl; repeat split;
    try assumption; try reflexivity; lia.
Qed.

Lemma stopping_steps (a : animation) (n : nat) (s s' : sys) :
  run_flag s = false -> steps a n s s' ->
  run_flag s' = false /\
  (writes (trace s') + frames_due (thread s') + finals_due (ctl s')
   <= writes (trace s) + frames_due (thread s) + finals_due (ctl s))%nat /\
  (sleeps (trace s') + sleeps_due (thread s')
   <= sleeps (trace s) + sleeps_due (thread s))%nat.
Proof.
  intros Hflag Hn. induction Hn as [s | n s s' s'' _ IH Hstep].
  - repeat split; [exact Hflag | lia | lia].
  - destruct (IH Hflag) as (Hflag' & Hw & Hs).
    destruct (stopping_step a s' s'' Hflag' Hstep) as (Hflag'' & Hw' & _ & Hs').
    repeat split; [exact Hflag'' | lia | lia].
Qed.

(** X10: once the running flag is false the background thread finishes at
    most the turn it is in: from any state with the flag false, whatever
    happens next, at most two more texts are written (one frame and the
    final text of [__exit__]; one text only when [__exit__] has already
    returned or the thread is not at its [print]), and the thread sleeps at
    most once more. *)
Theorem at_most_one_frame_after_stop
  (ind : indicator) (n : nat) (s s' : sys) :
  run_flag s = false ->
  steps (animation_of ind) n s s' ->
  run_flag s' = false /\
  (writes (trace s') <= writes (trace s) + 2)%nat /\
  (writes (trace s')
   <= writes (trace s) + frames_due (thread s) + finals_due (ctl s))%nat /\
  (sleeps (trace s') <= sleeps (trace s) + 1)%nat /\
  (sleeps (trace s') <= sleeps (trace s) + sleeps_due (thread s))%nat.
Proof.
  intros Hflag Hn.
  destruct (stopping_steps _ n s s' Hflag Hn) as (Hflag' & Hw & Hs).
  assert (frames_due (thread s) <= 1)%nat by (destruct (thread s); simpl; lia).
  assert (finals_due (ctl s) <= 1)%nat by (destruct (ctl s); simpl; lia).
  assert (sleeps_due (thread s) <= 1)%nat by (destruct (thread s); simpl; lia).
  repeat split; [exact Hflag' | lia | lia | lia | lia].
Qed.

Lemma go_stopping_to_left : steps (animation_of go) 5 go_stopping go_left.
Proof.
  unfold go_stopping, go_left.
  eapply steps_first; [eapply step_print; reflexivity|].
  eapply steps_first; [apply step_sleep|].
  eapply steps_first; [apply step_check_false|].
  eapply steps_first; [apply step_exit_join|].
  eapply steps_first; [apply step_exit_print|].
  apply steps_O.
Qed.

Lemma at_most_one_frame_after_stop_witness :
  (run_flag go_stopping = false /\
   steps (animation_of go) 5 go_stopping go_left) /\
  run_flag go_left = false /\
  (writes (trace go_left) <= writes (trace go_stopping) + 2)%nat.
Proof.
  split; [split; [reflexivity | exact go_stopping_to_left]|].
  destruct (at_most_one_frame_after_stop go 5 go_stopping go_left eq_refl
              go_stopping_to_left) as (H1 & H2 & _).
  split; [exact H1 | exact H2].
Defined.

(** X13: scope exit can win the race against the first frame: for every
    indicator and either outcome of the body there is a run of the [with]
    statement in which the background thread first reads the flag after
    [__exit__] has set it to false; no frame is drawn then, and the final
    text is all that is written. *)
Theorem scope_can_end_before_first_frame (ind : indicator) (o : outcome) :
  reachable_from (animation_of ind) (launched ind)
    (mkSys false TStopped (CLeft o) [Write (anim_final (animation_of ind))]).
Proof.
  exists 6%nat. unfold launched, start_of.
  eapply steps_first; [apply step_enter|].
  eapply steps_first; [apply (step_body_end _ _ _ _ o)|].
  eapply steps_first; [apply step_exit_stop|].
  eapply steps_first; [apply step_check_false|].
  eapply steps_first; [apply step_exit_join|].
  eapply steps_first; [apply step_exit_print|].
  apply steps_O.
Qed.

(** ** The background thread while the body runs *)

Section Running.

Variable a : animation.

(** The lookup of the frame succeeds in every turn. *)
Hypothesis frames_exist : forall t, anim_frame a (run_index a t) <> None.

(** [run] then ends in one way only: by reading the flag false. *)
Lemma ends_on_request_steps (n : nat) (s0 s : sys) :
  steps a n s0 s -> s0 = start_of true ->
  thread s = TStopped -> run_flag s = false.
Proof.
  intros Hn H0.
  induction Hn as [s | n s s' s'' Hn IH Hstep].
  - subst s. discriminate.
  - specialize (IH H0).
    assert (Hinv : inv a s') by (eapply inv_steps; [exact Hn | subst s; apply inv_start]).
    destruct Hinv as (_ & _ & _ & k & Hidx & _).
    destruct Hstep; cbn [run_flag thread] in *; try discriminate; auto.
    intros _. exfalso. simpl in Hidx. subst i. exact (frames_exist k H).
Qed.

Lemma ends_on_request (s : sys) :
  reachable_from a (start_of true) s ->
  thread s = TStopped -> run_flag s = false.
Proof. intros [n Hn]. exact (ends_on_request_steps n _ s Hn eq_refl). Qed.

(** While the body runs the background thread is inside its loop and can
    take its next step. *)
Lemma animates_in_body (s : sys) :
  reachable_from a (start_of true) s -> ctl s = CBody ->
  run_flag s = true /\
  exists s', step a s s' /\ thread s' <> thread s /\ ctl s' = CBody /\
             run_flag s' = true.
Proof.
  intros Hreach Hc.
  pose proof (ends_on_request s Hreach) as Hend.
  destruct (inv_reachable a s Hreach) as (Hflag & Hinit & _ & k & Hidx & _).
  destruct s as [f th c tr]. cbn [run_flag thread ctl trace] in *. subst c.
  simpl in Hflag. subst f. split; [reflexivity|].
  destruct th as [| i | i | i |].
  - destruct Hinit as [Hinit _]. specialize (Hinit eq_refl). discriminate.
  - exists (mkSys true (TPrint i) CBody tr).
    repeat split; [apply step_check_true | discriminate].
  - simpl in Hidx. subst i.
    destruct (anim_frame a (run_index a k)) as [txt|] eqn:Hfr;
      [| exfalso; exact (frames_exist k Hfr)].
    exists (mkSys true (TSleep (anim_next a (run_index a k))) CBody
              (tr ++ [Write txt])%list).
    repeat split; [apply step_print; exact Hfr | discriminate].
  - exists (mkSys true (TCheck i) CBody
              (tr ++ [Sleep (anim_interval a)])%list).
    repeat split; [apply step_sleep | discriminate].
  - specialize (Hend eq_refl). discriminate.
Qed.

End Running.

(** ** Any glyph set *)

Lemma get_in_range (s : string) (i : nat) :
  (i < String.length s)%nat -> exists c, String.get i s = Some c.
Proof.
  revert i. induction s as [|c s IH]; intros i Hi; simpl in *; [lia|].
  destruct i as [|i]; [exists c; reflexivity|]. apply IH. lia.
Qed.

Lemma run_index_glyphs (cs m : string) (e : bool) (t : nat) :
  cs <> "" ->
  run_index (glyph_animation cs m e) t = Z.of_nat (t mod String.length cs).
Proof.
  intros Hcs.
  assert (Hn : String.length cs <> O) by (destruct cs; [congruence | discriminate]).
  induction t as [|t IH].
  - simpl. rewrite Nat.Div0.mod_0_l. reflexivity.
  - simpl run_index. rewrite IH.
    unfold glyph_animation, _CharacterIterator.anim. cbn [anim_next].
    unfold _CharacterIterator.next, _CharacterIterator.__init__, len.
    cbn [_CharacterIterator._characters].
    rewrite !Nat2Z.inj_mod, Nat2Z.inj_succ.
    rewrite Z.add_mod_idemp_l by lia. f_equal; lia.
Qed.

Lemma frame_glyphs (cs m : string) (e : bool) (t : nat) :
  cs <> "" ->
  exists c,
    String.get (t mod String.length cs) cs = Some c /\
    anim_frame (glyph_animation cs m e) (run_index (glyph_animation cs m e) t)
    = Some (String c "" ++ " " ++ m ++ CR).
Proof.
  intros Hcs.
  assert (Hn : String.length cs <> O) by (destruct cs; [congruence | discriminate]).
  destruct (get_in_range cs (t mod String.length cs)) as [c Hc];
    [apply Nat.mod_upper_bound; exact Hn|].
  exists c. split; [exact Hc|].
  rewrite run_index_glyphs by exact Hcs.
  unfold glyph_animation, _CharacterIterator.anim. cbn [anim_frame].
  unfold _CharacterIterator.frame, _CharacterIterator.__init__.
  cbn [_CharacterIterator._characters _CharacterIterator._message].
  rewrite Nat2Z.id, Hc. reflexivity.
Qed.

(** X12: [_CharacterIterator] works for every non-empty glyph set, not only
    the two of [Bouncer] and [Spinner].  With [n] the number of glyphs, the
    frame of turn [t] is glyph number [t mod n], a space, the message and a
    carriage return (the lookup never raises), and in every state of the
    [with] statement the background thread has ended only if the flag is
    false; while the body runs the flag is true and the thread has a next
    step inside its loop. *)
Theorem any_glyph_set_cycles (cs m : string) (e : bool) (s : sys) :
  cs <> "" ->
  reachable_from (glyph_animation cs m e) (start_of true) s ->
  (forall t : nat,
     run_index (glyph_animation cs m e) t = Z.of_nat (t mod String.length cs) /\
     exists c,
       String.get (t mod String.length cs) cs = Some c /\
       anim_frame (glyph_animation cs m e)
         (run_index (glyph_animation cs m e) t)
       = Some (String c "" ++ " " ++ m ++ CR)) /\
  (thread s = TStopped -> run_flag s = false) /\
  (ctl s = CBody ->
   run_flag s = true /\
   exists s', step (glyph_animation cs m e) s s' /\ thread s' <> thread s /\
              ctl s' = CBody /\ run_flag s' = true).
Proof.
  intros Hcs Hreach.
  assert (Hfr : forall t, anim_frame (glyph_animation cs m e)
                            (run_index (glyph_animation cs m e) t) <> None).
  { intros t. destruct (frame_glyphs cs m e t Hcs) as (c & _ & ->). discriminate. }
  split; [|split].
  - intros t. split; [apply run_index_glyphs; exact Hcs | apply frame_glyphs; exact Hcs].
  - apply (ends_on_request _ Hfr); assumption.
  - apply (animates_in_body _ Hfr); assumption.
Qed.

Lemma any_glyph_set_cycles_witness :
  ("ab" <> "" /\
   reachable_from (glyph_animation "ab" "m" false) (start_of true)
     (mkSys true (TPrint 0) CBody [])) /\
  (forall t : nat,
     run_index (glyph_animation "ab" "m" false) t
     = Z.of_nat (t mod String.length "ab") /\
     exists c,
       String.get (t mod String.length "ab") "ab" = Some c /\
       anim_frame (glyph_animation "ab" "m" false)
         (run_index (glyph_animation "ab" "m" false) t)
       = Some (String c "" ++ " " ++ "m" ++ CR)).
Proof.
  assert (H1 : "ab" <> "") by discriminate.
  assert (H2 : reachable_from (glyph_animation "ab" "m" false) (start_of true)
                 (mkSys true (TPrint 0) CBody [])).
  { exists 2%nat. unfold start_of.
    eapply steps_first; [apply step_enter|].
    eapply steps_first; [apply step_check_true|].
    apply steps_O. }
  split; [split; [exact H1 | exact H2]|].
  destruct (any_glyph_set_cycles "ab" "m" false _ H1 H2) as (H & _).
  exact H.
Defined.

(** X14: for [Bouncer], [Spinner] and [Ellipsis] the animation lasts as long
    as the body: in every state of the [with] statement the background thread
    has ended only if [__exit__] has set the flag to false, and while the
    body runs the flag is true and the thread has a next step inside its
    loop (check, print or sleep). *)
Theorem animation_lasts_as_long_as_body (ind : indicator) (s : sys) :
  reachable_from (animation_of ind) (launched ind) s ->
  (thread s = TStopped -> run_flag s = false) /\
  (ctl s = CBody ->
   run_flag s = true /\
   exists s', step (animation_of ind) s s' /\ thread s' <> thread s /\
              ctl s' = CBody /\ run_flag s' = true).
Proof.
  intros Hreach. unfold launched in Hreach. rewrite flag_of_true in Hreach.
  assert (Hfr : forall t, anim_frame (animation_of ind)
                            (run_index (animation_of ind) t) <> None).
  { intros t. rewrite run_index_cycles, frame_spec. discriminate. }
  split.
  - apply (ends_on_request _ Hfr); assumption.
  - apply (animates_in_body _ Hfr); assumption.
Qed.

Lemma animation_lasts_as_long_as_body_witness :
  reachable_from (animation_of go) (launched go)
    (mkSys true (TPrint 0) CBody []) /\
  (thread (mkSys true (TPrint 0) CBody []) = TStopped ->
   run_flag (mkSys true (TPrint 0) CBody []) = false).
Proof.
  assert (H : reachable_from (animation_of go) (launched go)
                (mkSys true (TPrint 0) CBody [])).
  { exists 2%nat. unfold launched, start_of.
    eapply steps_first; [apply step_enter|].
    eapply steps_first; [apply step_check_true|].
    apply steps_O. }
  split; [exact H|].
  destruct (animation_lasts_as_long_as_body go _ H) as (H1 & _). exact H1.
Defined.

(** ** The empty glyph set *)

Lemma no_glyph_no_frame (m : string) (e : bool) (i : Z) :
  anim_frame (glyph_animation "" m e) i = None.
Proof.
  unfold glyph_animation, _CharacterIterator.anim. cbn [anim_frame].
  unfold _CharacterIterator.frame, _CharacterIterator.__init__.
  cbn [_CharacterIterator._characters]. destruct (Z.to_nat i); reflexivity.
Qed.

Lemma no_glyph_steps (m : string) (e : bool) (n : nat) (s0 s : sys) :
  steps (glyph_animation "" m e) n s0 s -> s0 = start_of true ->
  trace s = farewell (glyph_animation "" m e) (ctl s) /\
  (forall i, thread s <> TSleep i).
Proof.
  intros Hn H0. induction Hn as [s | n s s' s'' Hn IH Hstep].
  - subst s. split; [reflexivity | discriminate].
  - destruct (IH H0) as (Htr & Hth).
    assert (Hinv : inv (glyph_animation "" m e) s')
      by (eapply inv_steps; [exact Hn | subst s; apply inv_start]).
    destruct Hinv as (_ & _ & Hjoin & _).
    destruct Hstep; cbn [run_flag thread ctl trace farewell] in *;
      try (split; [exact Htr | discriminate]);
      try (split; [exact Htr | exact Hth]).
    + split; [rewrite Htr; reflexivity | exact Hth].
    + rewrite no_glyph_no_frame in H. discriminate.
    + exfalso. exact (Hth i eq_refl).
Qed.

(** X11: a [_CharacterIterator] with an empty glyph set draws nothing.  The
    glyph lookup of the first turn raises inside the background thread, which
    ends there, possibly while the body still runs and the flag is true; in
    every state of the [with] statement the standard output holds nothing
    but the final text of [__exit__], once it has returned, and the thread
    is never at its [sleep]. *)
Theorem empty_glyph_set_draws_nothing (m : string) (e : bool) (s : sys) :
  reachable_from (glyph_animation "" m e) (start_of true) s ->
  trace s = farewell (glyph_animation "" m e) (ctl s) /\
  (forall i, thread s <> TSleep i) /\
  reachable_from (glyph_animation "" m e) (start_of true)
    (mkSys true TStopped CBody []).
Proof.
  intros [n Hn].
  destruct (no_glyph_steps m e n _ s Hn eq_refl) as (Htr & Hth).
  split; [exact Htr | split; [exact Hth|]].
  exists 3%nat. unfold start_of.
  eapply steps_first; [apply step_enter|].
  eapply steps_first; [apply step_check_true|].
  eapply steps_first; [apply step_print_raise; apply no_glyph_no_frame|].
  apply steps_O.
Qed.

Lemma empty_glyph_set_draws_nothing_witness :
  reachable_from (glyph_animation "" "Go" false) (start_of true)
    (mkSys false TStopped (CLeft Returns) [Write ("Go  " ++ LF)]) /\
  trace (mkSys false TStopped (CLeft Returns) [Write ("Go  " ++ LF)])
  = farewell (glyph_animation "" "Go" false) (CLeft Returns).
Proof.
  assert (H : reachable_from (glyph_animation "" "Go" false) (start_of true)
                (mkSys false TStopped (CLeft Returns) [Write ("Go  " ++ LF)])).
  { exists 7%nat. unfold start_of.
    eapply steps_first; [apply step_enter|].
    eapply steps_first; [apply step_check_true|].
    eapply steps_first; [apply step_print_raise; apply no_glyph_no_frame|].
    eapply steps_first; [apply (step_body_end _ _ _ _ Returns)|].
    eapply steps_first; [apply step_exit_stop|].
    eapply steps_first; [apply step_exit_join|].
    eapply steps_first; [apply step_exit_print|].
    apply steps_O. }
  split; [exact H|].
  destruct (empty_glyph_set_draws_nothing "Go" false _ H) as (H1 & _).
  exact H1.
Defined.

(** ** The percentage *)

Module PercentFacts.

Import PyFloat.
Import FloatFacts.

Lemma new_location_spec (nb k : Z) :
  0 <= k < nb -> loc_spec (new_location nb k) k nb.
Proof.
  intros Hk. unfold new_location, new_location_even, new_location_odd.
  change IntDef.Z.even with Z.even.
  destruct (Z.even nb) eqn:Hev; destruct (Z.eqb_spec k 0) as [->|Hk0];
    try reflexivity.
  - destruct (Z.compare_spec (2 * k) nb); unfold loc_spec; lia.
  - assert (Hodd : Z.odd nb = true) by (rewrite <- Z.negb_even, Hev; reflexivity).
    apply Z.odd_spec in Hodd. destruct Hodd as [h Hh].
    destruct (Z.compare_spec (2 * k + 1) nb); unfold loc_spec; lia.
Qed.

(** Rounding to nearest is within half a unit of the exact value. *)
Lemma rne_nearest (q r d : Z) (l : location) :
  0 <= r < d -> loc_spec l r d ->
  - d <= 2 * (round_nearest_even q l * d - (q * d + r)) <= d.
Proof.
  intros Hr Hl. unfold round_nearest_even. change IntDef.Z.even with Z.even.
  destruct l as [|[]]; unfold loc_spec in Hl; try destruct (Z.even q); nia.
Qed.

Lemma shift_loc_spec (q r d : Z) (l : location) :
  0 <= r < d -> loc_spec l r d ->
  loc_spec (shift_loc (Z.odd q) l) (q mod 2 * d + r) (2 * d).
Proof.
  intros Hr Hl. rewrite Zmod_odd.
  destruct (Z.odd q); destruct l as [|[]];
    unfold shift_loc, loc_spec in *; lia.
Qed.

Lemma shr_1_spec (m : Z) (r s : bool) :
  0 <= m ->
  shr_1 (Build_shr_record m r s)
  = Build_shr_record (m / 2) (Z.odd m) (r || s).
Proof.
  intros Hm. destruct m as [|[p|p|]|p]; try lia; simpl shr_1.
  - reflexivity.
  - f_equal. rewrite Pos2Z.inj_xI.
    apply (Z.div_unique _ _ _ 1); lia.
  - f_equal. rewrite Pos2Z.inj_xO.
    apply (Z.div_unique _ _ _ 0); lia.
  - reflexivity.
Qed.

Lemma loc_of_shr_1 (m : Z) (r s : bool) :
  loc_of_shr_record (Build_shr_record (m / 2) (Z.odd m) (r || s))
  = shift_loc (Z.odd m) (loc_of_shr_record (Build_shr_record m r s)).
Proof. destruct (Z.odd m), r, s; reflexivity. Qed.

(** [n] shifts to the right: the quotient by [2^n] and where the remainder
    lies. *)
Lemma shr_iter_spec (M : Z) (n : nat) :
  0 <= M ->
  shr_m (Nat.iter n shr_1 (Build_shr_record M false false))
  = M / 2 ^ Z.of_nat n /\
  loc_spec (loc_of_shr_record
              (Nat.iter n shr_1 (Build_shr_record M false false)))
    (M mod 2 ^ Z.of_nat n) (2 ^ Z.of_nat n).
Proof.
  intros HM. induction n as [|n (Hm & Hl)].
  - simpl. rewrite Z.div_1_r, Z.mod_1_r. split; reflexivity.
  - rewrite !Nat.iter_succ.
    destruct (Nat.iter n shr_1 (Build_shr_record M false false))
      as [m r s] eqn:Hrec.
    cbn [shr_m] in Hm.
    assert (Hp : 0 < 2 ^ Z.of_nat n) by (apply Z.pow_pos_nonneg; lia).
    assert (Hm0 : 0 <= m) by (rewrite Hm; apply Z.div_pos; lia).
    rewrite shr_1_spec by exact Hm0. cbn [shr_m].
    rewrite loc_of_shr_1.
    rewrite Nat2Z.inj_succ, Z.pow_succ_r by lia.
    pose proof (Z.mod_pos_bound M (2 ^ Z.of_nat n) Hp) as Hr.
    pose proof (Z.div_mod M (2 ^ Z.of_nat n) ltac:(lia)) as HdM.
    pose proof (Z.div_mod m 2 ltac:(lia)) as Hdm.
    pose proof (Z.mod_pos_bound m 2 ltac:(lia)) as Hrm.
    pose proof (shift_loc_spec m _ _ _ Hr Hl) as Hs.
    rewrite <- Hm in HdM.
    set (P := 2 ^ Z.of_nat n) in *. set (R := M mod P) in *.
    assert (Hq : M / (2 * P) = m / 2).
    { symmetry. apply (Z.div_unique _ _ _ (m mod 2 * P + R)); nia. }
    assert (Hmod : M mod (2 * P) = m mod 2 * P + R).
    { symmetry. apply (Z.mod_unique _ _ (m / 2)); nia. }
    rewrite Hq, Hmod. split; [reflexivity | exact Hs].
Qed.

(** Rounding a mantissa of [53 + d] bits with nothing behind it. *)
Lemma bra_shift (s : bool) (M : positive) (d : positive) (e : Z) :
  2 ^ (52 + Zpos d) <= Zpos M < 2 ^ (53 + Zpos d) ->
  -1074 <= e + Zpos d ->
  exists q,
    binary_round_aux prec emax s (Zpos M) e loc_Exact
    = finish s q (e + Zpos d) /\
    2 ^ 52 <= q <= 2 ^ 53 /\
    - 2 ^ Zpos d <= 2 * (q * 2 ^ Zpos d - Zpos M) <= 2 ^ Zpos d.
Proof.
  intros HM He. rewrite binary_round_aux_finish. unfold shr_fexp.
  simpl Zdigits2.
  rewrite (digits2_pos_unique M (53 + Zpos d))
    by (replace (53 + Zpos d - 1) with (52 + Zpos d) by lia; exact HM).
  rewrite fexp_normal by lia.
  replace (53 + Zpos d + e - 53 - e) with (Zpos d) by lia.
  cbn [shr_record_of_loc shr]. rewrite iter_pos_nat.
  destruct (shr_iter_spec (Zpos M) (Pos.to_nat d) ltac:(lia)) as (Hm & Hl).
  rewrite positive_nat_Z in Hm, Hl.
  set (rec := Nat.iter (Pos.to_nat d) shr_1
                (Build_shr_record (Zpos M) false false)) in *.
  assert (Hp : 0 < 2 ^ Zpos d) by (apply Z.pow_pos_nonneg; lia).
  pose proof (Z.mod_pos_bound (Zpos M) (2 ^ Zpos d) Hp) as Hr.
  pose proof (Z.div_mod (Zpos M) (2 ^ Zpos d) ltac:(lia)) as HdM.
  pose proof (rne_nearest (shr_m rec) _ _ _ Hr Hl) as Hn.
  pose proof (round_nearest_even_bounds (shr_m rec) (loc_of_shr_record rec))
    as Hb.
  exists (round_nearest_even (shr_m rec) (loc_of_shr_record rec)).
  split; [reflexivity|].
  rewrite Hm in *.
  assert (H52 : 2 ^ (52 + Zpos d) = 2 ^ 52 * 2 ^ Zpos d)
    by (apply Z.pow_add_r; lia).
  assert (H53 : 2 ^ (53 + Zpos d) = 2 ^ 53 * 2 ^ Zpos d)
    by (apply Z.pow_add_r; lia).
  set (P := 2 ^ Zpos d) in *. set (Q := Zpos M / P) in *.
  assert (2 ^ 52 <= Q < 2 ^ 53) by nia.
  split; [lia|]. nia.
Qed.

(** What [finish] makes of a rounded mantissa. *)
Lemma finish_cases (s : bool) (q e : Z) :
  2 ^ 52 <= q <= 2 ^ 53 -> -1074 <= e <= 970 ->
  exists (m : positive) (c : Z),
    finish s q e = S754_finite s m (e + c) /\
    2 ^ 52 <= Zpos m < 2 ^ 53 /\ 0 <= c <= 1 /\ Zpos m * 2 ^ c = q.
Proof.
  intros Hq He. destruct (Z.eq_dec q (2 ^ 53)) as [->|Hne].
  - exists (2 ^ 52)%positive, 1. rewrite finish_carry by lia.
    repeat split; try reflexivity; lia.
  - destruct q as [|p|p]; try (simpl in Hq; lia).
    exists p, 0. rewrite finish_53 by lia. rewrite Z.add_0_r.
    repeat split; try reflexivity; lia.
Qed.

(** True division of two positive integers below [2^53], before rounding:
    the first is scaled by [2^s] so that the quotient has 53 or 54 bits. *)
Lemma truediv_core (a b : positive) :
  Zpos a < 2 ^ 53 -> Zpos b < 2 ^ 53 ->
  exists s q r,
    (Zpos a <= Zpos b -> 53 <= s) /\ 1 <= s <= 105 /\
    Zpos a * 2 ^ s = q * Zpos b + r /\ 0 <= r < Zpos b /\
    2 ^ 52 <= q < 2 ^ 54 /\
    SFdiv prec emax (S754_finite false a 0) (S754_finite false b 0)
    = binary_round_aux prec emax false q (- s) (new_location (Zpos b) r).
Proof.
  intros Ha Hb.
  pose proof (digits2_pos_bounds a) as Hda.
  pose proof (digits2_pos_bounds b) as Hdb.
  unfold SFdiv, SFdiv_core_binary. simpl Zdigits2.
  set (da := Zpos (digits2_pos a)) in *. set (db := Zpos (digits2_pos b)) in *.
  assert (1 <= da) by (unfold da; lia). assert (1 <= db) by (unfold db; lia).
  assert (da <= 53).
  { assert (da - 1 < 53); [|lia]. apply (Z.pow_lt_mono_r_iff 2); lia. }
  assert (db <= 53).
  { assert (db - 1 < 53); [|lia]. apply (Z.pow_lt_mono_r_iff 2); lia. }
  rewrite fexp_normal by lia.
  replace (Z.min (da + 0 - (db + 0) - 53) (0 - 0)) with (da - db - 53) by lia.
  replace (0 - 0 - (da - db - 53)) with (Zpos (Z.to_pos (53 + db - da)))
    by (rewrite Z2Pos.id; lia).
  rewrite Z.shiftl_mul_pow2 by lia. rewrite Z2Pos.id by lia.
  rewrite div_eucl_div_mod.
  pose proof (Z.div_mod (Zpos a * 2 ^ (53 + db - da)) (Zpos b) ltac:(lia))
    as Hdm.
  pose proof (Z.mod_pos_bound (Zpos a * 2 ^ (53 + db - da)) (Zpos b)
                ltac:(lia)) as Hr.
  exists (53 + db - da), (Zpos a * 2 ^ (53 + db - da) / Zpos b),
         ((Zpos a * 2 ^ (53 + db - da)) mod Zpos b).
  set (q := Zpos a * 2 ^ (53 + db - da) / Zpos b) in *.
  set (r := (Zpos a * 2 ^ (53 + db - da)) mod Zpos b) in *.
  assert (Hlo : 2 ^ 52 * 2 ^ db = 2 ^ (da - 1) * 2 ^ (53 + db - da)).
  { rewrite <- !Z.pow_add_r by lia. f_equal; lia. }
  assert (Hhi : 2 ^ 54 * 2 ^ (db - 1) = 2 ^ da * 2 ^ (53 + db - da)).
  { rewrite <- !Z.pow_add_r by lia. f_equal; lia. }
  assert (0 < 2 ^ (53 + db - da)) by (apply Z.pow_pos_nonneg; lia).
  assert (0 < 2 ^ (db - 1)) by (apply Z.pow_pos_nonneg; lia).
  split; [|split; [lia|split; [lia|split; [exact Hr|split]]]].
  - intros Hab. assert (da - 1 < db); [|lia].
    apply (Z.pow_lt_mono_r_iff 2); lia.
  - split.
    + assert (2 ^ 52 * Zpos b < (q + 1) * Zpos b) by nia.
      assert (2 ^ 52 < q + 1) by (apply (Z.mul_lt_mono_pos_r (Zpos b)); lia).
      lia.
    + assert (q * Zpos b < 2 ^ 54 * Zpos b) by nia.
      apply (Z.mul_lt_mono_pos_r (Zpos b)); lia.
  - f_equal. lia.
Qed.

(** [k / n] for [0 < k <= n < 2^53]: a normal double at most one, within
    half a unit in the last place of the exact quotient. *)
Lemma truediv_nearest (a b : Z) :
  0 < a <= b -> b < 2 ^ 53 ->
  exists (m : positive) (e : Z),
    int_truediv a b = Ok (S754_finite false m e) /\
    2 ^ 52 <= Zpos m < 2 ^ 53 /\ -105 <= e <= -52 /\
    - b <= 2 * (Zpos m * b - a * 2 ^ (- e)) <= b.
Proof.
  intros Ha Hb. destruct a as [|a|a]; try lia. destruct b as [|b|b]; try lia.
  unfold int_truediv.
  change (Z.to_pos (Z.abs (Zpos a))) with a.
  change (Z.to_pos (Z.abs (Zpos b))) with b.
  change (Zpos a <? 0) with false. change (Zpos b <? 0) with false.
  destruct (truediv_core a b ltac:(lia) ltac:(lia))
    as (s & q & r & Hs53 & Hs & Hqr & Hr & Hq & ->).
  specialize (Hs53 ltac:(lia)).
  pose proof (new_location_spec (Zpos b) r Hr) as Hl.
  assert (Hfin : exists (m : positive) (e : Z),
             binary_round_aux prec emax false q (- s)
               (new_location (Zpos b) r) = S754_finite false m e /\
             2 ^ 52 <= Zpos m < 2 ^ 53 /\ - s <= e <= - s + 2 /\
             - Zpos b <= 2 * (Zpos m * Zpos b - Zpos a * 2 ^ (- e)) <= Zpos b).
  { destruct q as [|p|p]; try (simpl in Hq; lia).
    destruct (Z_lt_le_dec (Zpos p) (2 ^ 53)) as [H53|H53].
    - rewrite bra_53 by lia.
      pose proof (round_nearest_even_bounds (Zpos p)
                    (new_location (Zpos b) r)) as Hb'.
      pose proof (rne_nearest (Zpos p) r (Zpos b) _ Hr Hl) as Hn.
      set (q' := round_nearest_even (Zpos p) (new_location (Zpos b) r)) in *.
      destruct (finish_cases false q' (- s) ltac:(lia) ltac:(lia))
        as (m & c & -> & Hm & Hc & Hmc).
      exists m, (- s + c). split; [reflexivity|]. split; [exact Hm|].
      split; [lia|].
      assert (Hc' : c = 0 \/ c = 1) by lia.
      destruct Hc' as [-> | ->].
      + replace (- (- s + 0)) with s by lia.
        rewrite Z.pow_0_r in Hmc. nia.
      + replace (- (- s + 1)) with (s - 1) by lia.
        assert (Hp : 2 ^ s = 2 * 2 ^ (s - 1)).
        { rewrite <- Z.pow_succ_r by lia. f_equal. lia. }
        rewrite Z.pow_1_r in Hmc. nia.
    - rewrite bra_54 by lia.
      pose proof (Z.div_mod (Zpos p) 2 ltac:(lia)) as Hd2.
      pose proof (Z.mod_pos_bound (Zpos p) 2 ltac:(lia)) as Hr2.
      pose proof (shift_loc_spec (Zpos p) r (Zpos b) _ Hr Hl) as Hl'.
      assert (Hr' : 0 <= Zpos p mod 2 * Zpos b + r < 2 * Zpos b) by nia.
      pose proof (round_nearest_even_bounds (Zpos p / 2)
                    (shift_loc (Z.odd (Zpos p)) (new_location (Zpos b) r)))
        as Hb'.
      pose proof (rne_nearest (Zpos p / 2) _ _ _ Hr' Hl') as Hn.
      set (q' := round_nearest_even (Zpos p / 2)
                   (shift_loc (Z.odd (Zpos p)) (new_location (Zpos b) r)))
        in *.
      destruct (finish_cases false q' (- s + 1) ltac:(lia) ltac:(lia))
        as (m & c & -> & Hm & Hc & Hmc).
      exists m, (- s + 1 + c). split; [reflexivity|]. split; [exact Hm|].
      split; [lia|].
      assert (Hp : 2 ^ s = 2 * 2 ^ (s - 1)).
      { rewrite <- Z.pow_succ_r by lia. f_equal. lia. }
      assert (Hp' : 2 ^ (s - 1) = 2 * 2 ^ (s - 2)).
      { rewrite <- Z.pow_succ_r by lia. f_equal. lia. }
      assert (Hc' : c = 0 \/ c = 1) by lia.
      destruct Hc' as [-> | ->].
      + replace (- (- s + 1 + 0)) with (s - 1) by lia.
        rewrite Z.pow_0_r in Hmc. nia.
      + replace (- (- s + 1 + 1)) with (s - 2) by lia.
        rewrite Z.pow_1_r in Hmc. nia. }
  destruct Hfin as (m & e & -> & Hm & He & Hn).
  exists m, e. cbn [is_finite]. split; [reflexivity|]. split; [exact Hm|].
  split; [|exact Hn].
  split; [lia|].
  destruct (Z_le_gt_dec e (-52)) as [Hle|Hgt]; [exact Hle | exfalso].
  assert (He' : 2 ^ (- e) <= 2 ^ 51) by (apply Z.pow_le_mono_r; lia).
  assert (0 < 2 ^ (- e)) by (apply Z.pow_pos_nonneg; lia).
  nia.
Qed.

Lemma hundred_value : hundred = S754_finite false (100 * 2 ^ 46)%positive (-46).
Proof. reflexivity. Qed.

(** [x * 100.0] for a normal double [x] at most one: a normal double at most
    one hundred, within half a unit in the last place of the exact
    product. *)
Lemma mul_hundred_nearest (mx : positive) (ex : Z) :
  2 ^ 52 <= Zpos mx < 2 ^ 53 -> -105 <= ex <= -52 ->
  Zpos mx <= 2 ^ (- ex) ->
  exists (my : positive) (ey : Z),
    mul (S754_finite false mx ex) hundred = S754_finite false my ey /\
    2 ^ 52 <= Zpos my < 2 ^ 53 /\ ex + 6 <= ey <= -46 /\
    - 2 ^ (ey - ex + 46)
    <= 2 * (Zpos my * 2 ^ (ey - ex + 46) - Zpos mx * (100 * 2 ^ 46))
    <= 2 ^ (ey - ex + 46).
Proof.
  intros Hmx Hex Hone. rewrite hundred_value. unfold mul, SFmul.
  cbn [xorb]. set (M := (mx * (100 * 2 ^ 46))%positive).
  assert (HM : Zpos M = Zpos mx * (100 * 2 ^ 46))
    by (unfold M; rewrite Pos2Z.inj_mul; reflexivity).
  assert (Hlo : 2 ^ 104 <= Zpos M) by lia.
  assert (Hhi : Zpos M < 2 ^ 106) by lia.
  assert (Hround : exists (q : Z) (j : Z),
            binary_round_aux prec emax false (Zpos M) (ex + -46) loc_Exact
            = finish false q (ex + 6 + j) /\
            0 <= j <= 1 /\ 2 ^ 52 <= q <= 2 ^ 53 /\
            - 2 ^ (52 + j) <= 2 * (q * 2 ^ (52 + j) - Zpos M) <= 2 ^ (52 + j)).
  { destruct (Z_lt_le_dec (Zpos M) (2 ^ 105)) as [H105|H105].
    - destruct (bra_shift false M 52 (ex + -46)) as (q & Hq & Hqb & Hn);
        [change (52 + 52) with 104; change (53 + 52) with 105; lia | lia |].
      exists q, 0. replace (ex + 6 + 0) with (ex + -46 + 52) by lia.
      split; [exact Hq|]. split; [lia|]. split; [exact Hqb|exact Hn].
    - destruct (bra_shift false M 53 (ex + -46)) as (q & Hq & Hqb & Hn);
        [change (52 + 53) with 105; change (53 + 53) with 106; lia | lia |].
      exists q, 1. replace (ex + 6 + 1) with (ex + -46 + 53) by lia.
      split; [exact Hq|]. split; [lia|]. split; [exact Hqb|exact Hn]. }
  destruct Hround as (q & j & -> & Hj & Hq & Hn).
  destruct (finish_cases false q (ex + 6 + j) Hq ltac:(lia))
    as (my & c & -> & Hmy & Hc & Hmc).
  exists my, (ex + 6 + j + c). split; [reflexivity|]. split; [exact Hmy|].
  replace (ex + 6 + j + c - ex + 46) with (52 + j + c) by lia.
  assert (Hnear : - 2 ^ (52 + j + c)
                  <= 2 * (Zpos my * 2 ^ (52 + j + c) - Zpos M)
                  <= 2 ^ (52 + j + c)).
  { rewrite (Z.pow_add_r 2 (52 + j) c) by lia. rewrite <- Hmc in Hn.
    assert (Hc' : c = 0 \/ c = 1) by lia.
    assert (0 < 2 ^ (52 + j)) by (apply Z.pow_pos_nonneg; lia).
    destruct Hc' as [-> | ->].
    - rewrite Z.pow_0_r in *. lia.
    - rewrite Z.pow_1_r in *. lia. }
  rewrite <- HM. split; [|exact Hnear].
  split; [lia|].
  assert (Hjc : j + c = 0 \/ j + c = 1 \/ j + c = 2) by lia.
  replace (52 + j + c) with (52 + (j + c)) in Hnear by lia.
  assert (Hcase : ex = -52 \/ ex = -53 \/ ex <= -54) by lia.
  destruct Hjc as [Hjc | [Hjc | Hjc]]; rewrite Hjc in Hnear; [lia | |].
  - destruct Hcase as [-> | [-> | Hle]]; [exfalso | lia | lia].
    change (2 ^ (- -52)) with (2 ^ 52) in Hone.
    change (52 + 1) with 53 in Hnear. lia.
  - destruct Hcase as [-> | [-> | Hle]]; [exfalso | exfalso | lia].
    + change (2 ^ (- -52)) with (2 ^ 52) in Hone.
      change (52 + 2) with 54 in Hnear. lia.
    + change (2 ^ (- -53)) with (2 ^ 53) in Hone.
      change (52 + 2) with 54 in Hnear. lia.
Qed.

(** The integer printed for a double [m * 2^e] with [e < 0] is within one
    half of it. *)
Lemma round_half_even_nearest (m : positive) (e : Z) :
  e < 0 ->
  - 2 ^ (- e) <= 2 * (round_half_even m e * 2 ^ (- e) - Zpos m) <= 2 ^ (- e).
Proof.
  intros He. destruct e as [|e|e]; try lia.
  unfold round_half_even. change (- Z.neg e) with (Zpos e).
  rewrite Z.shiftl_mul_pow2, Z.mul_1_l by lia.
  assert (Hp : 0 < 2 ^ Zpos e) by (apply Z.pow_pos_nonneg; lia).
  pose proof (Z.div_mod (Zpos m) (2 ^ Zpos e) ltac:(lia)) as Hdm.
  pose proof (Z.mod_pos_bound (Zpos m) (2 ^ Zpos e) Hp) as Hr.
  set (P := 2 ^ Zpos e) in *.
  set (q := Zpos m / P) in *. set (r := Zpos m mod P) in *.
  destruct (Z.compare_spec (2 * r) P); [destruct (Z.even q)| |]; nia.
Qed.

End PercentFacts.

(** X15: with [percent] true, a total [0 < n < 2^53] and a count
    [0 <= k <= n], the text [update(k)] puts between the parentheses is an
    integer [p] followed by a percent sign, with [0 <= p <= 100] and the
    exact percentage [100*k/n] strictly between [p - 1] and [p + 1]: the
    two roundings of the division and of the product by [100.0] never move
    the printed number past the integers next to the exact value. *)
Theorem percentage_is_within_one (pb : ProgressBar.t) (k : Z) :
  ProgressBar._percent pb = true ->
  0 < ProgressBar._n pb < 2 ^ 53 ->
  0 <= k <= ProgressBar._n pb ->
  exists p,
    ProgressBar.complete pb k = Ok (str_int p ++ "%") /\
    0 <= p <= 100 /\
    (p - 1) * ProgressBar._n pb < 100 * k < (p + 1) * ProgressBar._n pb.
Proof.
  intros Hpc Hn Hk. destruct (Z.eq_dec k 0) as [-> | Hk0].
  { exists 0. rewrite FloatFacts.complete_percent_zero by (lia || assumption).
    split; [reflexivity | lia]. }
  unfold ProgressBar.complete. rewrite Hpc.
  set (n := ProgressBar._n pb) in *.
  destruct (PercentFacts.truediv_nearest k n ltac:(lia) ltac:(lia))
    as (mx & ex & -> & Hmx & Hex & Hd).
  cbn [bind]. unfold PyFloat.format_percent0.
  assert (HE : 0 < 2 ^ (- ex)) by (apply Z.pow_pos_nonneg; lia).
  assert (Hone : Zpos mx <= 2 ^ (- ex)) by nia.
  destruct (PercentFacts.mul_hundred_nearest mx ex Hmx Hex Hone)
    as (my & ey & -> & Hmy & Hey & Hm).
  pose proof (PercentFacts.round_half_even_nearest my ey ltac:(lia)) as Hr.
  set (p := PyFloat.round_half_even my ey) in *.
  exists p. split; [reflexivity|].
  assert (HT : 2 ^ (ey - ex + 46) * 2 ^ (- ey) = 2 ^ (- ex) * 2 ^ 46).
  { rewrite <- !Z.pow_add_r by lia. f_equal. lia. }
  assert (HF : 2 ^ 46 <= 2 ^ (- ey)) by (apply Z.pow_le_mono_r; lia).
  assert (HE52 : 2 ^ 52 <= 2 ^ (- ex)) by (apply Z.pow_le_mono_r; lia).
  assert (HG : 0 < 2 ^ (ey - ex + 46)) by (apply Z.pow_pos_nonneg; lia).
  set (E := 2 ^ (- ex)) in *. set (F := 2 ^ (- ey)) in *.
  set (G := 2 ^ (ey - ex + 46)) in *.
  assert (Hmain : (p - 1) * n < 100 * k < (p + 1) * n).
  { assert (Hsmall : G + 100 * 2 ^ 46 < G * F) by nia.
    assert (H3a : 2 * (p * F - Zpos my) * (G * n) <= F * (G * n))
      by (apply Z.mul_le_mono_nonneg_r; nia).
    assert (H3b : - F * (G * n) <= 2 * (p * F - Zpos my) * (G * n))
      by (apply Z.mul_le_mono_nonneg_r; nia).
    assert (H2a : 2 * (Zpos my * G - Zpos mx * (100 * 2 ^ 46)) * n <= G * n)
      by (apply Z.mul_le_mono_nonneg_r; lia).
    assert (H2b : - G * n <= 2 * (Zpos my * G - Zpos mx * (100 * 2 ^ 46)) * n)
      by (apply Z.mul_le_mono_nonneg_r; lia).
    assert (H1a : 2 * (Zpos mx * n - k * E) * (100 * 2 ^ 46)
                  <= n * (100 * 2 ^ 46))
      by (apply Z.mul_le_mono_nonneg_r; lia).
    assert (H1b : - n * (100 * 2 ^ 46)
                  <= 2 * (Zpos mx * n - k * E) * (100 * 2 ^ 46))
      by (apply Z.mul_le_mono_nonneg_r; lia).
    assert (HkT : k * E * (100 * 2 ^ 46) = 100 * k * (G * F))
      by (rewrite HT; ring).
    assert (Hsm : n * (G + 100 * 2 ^ 46) < n * (G * F))
      by (apply Z.mul_lt_mono_pos_l; lia).
    assert (Hup : 2 * (G * F) * (p * n - 100 * k) < 2 * (G * F) * n) by lia.
    assert (Hdn : 2 * (G * F) * (- n) < 2 * (G * F) * (p * n - 100 * k)) by lia.
    apply Z.mul_lt_mono_pos_l in Hup; [|nia].
    apply Z.mul_lt_mono_pos_l in Hdn; [|nia].
    lia. }
  split; [|exact Hmain].
  clear - Hmain Hn Hk. split.
  - destruct (Z_le_gt_dec 0 p) as [H|H]; [exact H | exfalso].
    assert ((p + 1) * n <= 0) by nia. lia.
  - destruct (Z_le_gt_dec p 100) as [H|H]; [exact H | exfalso].
    assert (100 * n <= (p - 1) * n) by nia. lia.
Qed.

Lemma percentage_is_within_one_witness :
  (ProgressBar._percent load_bar = true /\
   0 < ProgressBar._n load_bar < 2 ^ 53 /\
   0 <= 1 <= ProgressBar._n load_bar) /\
  exists p,
    ProgressBar.complete load_bar 1 = Ok (str_int p ++ "%") /\
    0 <= p <= 100 /\
    (p - 1) * ProgressBar._n load_bar < 100 * 1
    < (p + 1) * ProgressBar._n load_bar.
Proof.
  split.
  - vm_compute. repeat split; congruence.
  - apply (percentage_is_within_one load_bar 1);
      vm_compute; repeat split; congruence.
Defined.

(** ** The faults of [update] *)

Module FaultFacts.

Import PyFloat.
Import FloatFacts.















End FaultFacts.


